(** * Phylogeny simulator and statistical verifier

    A shallow embedding of [phylogeny_simulator_and_statistical_verifier.py]
    and the properties of its simulation and analysis functions.

    Modelling conventions.
    - Python [int] is [Z]; lengths and [range] counters are [nat].
    - Python [float] values (the downsample rate, the ancestry fractions) are
      the rationals they denote, [Q], and arithmetic on them is exact.
    - Exceptions are the [Raise] branch of [result].
    - The process-wide generator of the [random] module is an explicit state
      [rng], an arbitrary infinite sequence of raw draws still to come; the
      simulation functions live in the state-and-error monad [Sim].
    - The one list object that is mutated in place lives in a [heap] of list
      objects; the analysis functions live in the monad [Ana], whose heap
      survives a raised exception. *)

From Stdlib Require Import List ZArith QArith Qround Qabs Lia Bool Arith.
From Stdlib Require Import Permutation Sorted Qpower Lqa.
Import ListNotations.

Set Implicit Arguments.
Close Scope Q_scope.
Open Scope nat_scope.

(** ** Exceptions and monads *)

Inductive exn : Set :=
| ValueError
| IndexError
| ZeroDivisionError
| AssertionError.

Inductive result (A : Type) : Type :=
| Ok (a : A)
| Raise (e : exn).

Arguments Ok {A} a.
Arguments Raise {A} e.

Class Monad (M : Type -> Type) : Type := {
  ret : forall {A : Type}, A -> M A;
  bind : forall {A B : Type}, M A -> (A -> M B) -> M B
}.

Notation "x <- m ;; k" := (bind m (fun x => k))
  (at level 61, m at next level, right associativity).
Notation "m ;; k" := (bind m (fun _ => k))
  (at level 61, right associativity).

#[export] Instance Monad_result : Monad result := {
  ret := fun A a => Ok a;
  bind := fun A B m k => match m with Ok a => k a | Raise e => Raise e end
}.

(** [[f x for x in l]] when [f] has effects, left to right. *)
Fixpoint mapM {M : Type -> Type} `{Monad M} {A B : Type}
    (f : A -> M B) (l : list A) : M (list B) :=
  match l with
  | [] => ret []
  | x :: l' => y <- f x ;; ys <- mapM f l' ;; ret (y :: ys)
  end.

(** [[m for _ in range(n)]]. *)
Fixpoint repeatM {M : Type -> Type} `{Monad M} {A : Type}
    (n : nat) (m : M A) : M (list A) :=
  match n with
  | O => ret []
  | S n' => y <- m ;; ys <- repeatM n' m ;; ret (y :: ys)
  end.

(** [for x in l: acc = f(acc, x)]. *)
Fixpoint foldM {M : Type -> Type} `{Monad M} {A B : Type}
    (f : B -> A -> M B) (l : list A) (acc : B) : M B :=
  match l with
  | [] => ret acc
  | x :: l' => acc' <- f acc x ;; foldM f l' acc'
  end.

(** ** Python built-ins on lists *)

Definition len {A : Type} (l : list A) : Z := Z.of_nat (length l).

(** [l[i]], negative indices counting from the end. *)
Definition py_getitem {A : Type} (l : list A) (i : Z) : result A :=
  let j := if (i <? 0)%Z then (i + len l)%Z else i in
  if (j <? 0)%Z then Raise IndexError
  else match nth_error l (Z.to_nat j) with
       | Some x => Ok x
       | None => Raise IndexError
       end.

Definition py_range (a b : Z) : list Z :=
  map (fun i => (a + Z.of_nat i)%Z) (seq 0 (Z.to_nat (b - a))).

Definition py_sum (l : list Z) : Z := fold_left Z.add l 0%Z.

Fixpoint max_by {A : Type} (key : A -> Z) (best : A) (l : list A) : A :=
  match l with
  | [] => best
  | x :: l' => if (key best <? key x)%Z then max_by key x l'
               else max_by key best l'
  end.

(** [max(l, key=key)]: the first element whose key is maximal. *)
Definition py_max {A : Type} (key : A -> Z) (l : list A) : result A :=
  match l with
  | [] => Raise ValueError
  | x :: l' => Ok (max_by key x l')
  end.

Section Sort.
Variable A : Type.
Variable leb : A -> A -> bool.

Fixpoint insert_sorted (x : A) (l : list A) : list A :=
  match l with
  | [] => [x]
  | y :: l' => if leb x y then x :: l else y :: insert_sorted x l'
  end.

(** The content of a list object after [l.sort()]. *)
Fixpoint py_sorted (l : list A) : list A :=
  match l with
  | [] => []
  | x :: l' => insert_sorted x (py_sorted l')
  end.
End Sort.

(** [int(x)] on a float: truncation toward zero. *)
Definition py_int (x : Q) : Z := Z.quot (Qnum x) (Zpos (Qden x)).

(** [a / b] on numbers. *)
Definition py_truediv (a b : Q) : result Q :=
  if Qeq_bool b 0 then Raise ZeroDivisionError else Ok (a / b)%Q.

Definition py_fsum (l : list Q) : Q := fold_left Qplus l 0%Q.

(** ** The random source *)

(** The functions of Python's [random] module are modelled by their
    documented behaviour on top of one primitive, [randbelow]. *)

(** The raw draws still to come: [g 0] is the next one. *)
Definition rng : Type := nat -> nat.

Definition Sim (A : Type) : Type := rng -> result (A * rng).

#[export] Instance Monad_Sim : Monad Sim := {
  ret := fun A a g => Ok (a, g);
  bind := fun A B m k g =>
    match m g with
    | Ok (a, g') => k a g'
    | Raise e => Raise e
    end
}.

Definition lift {A : Type} (r : result A) : Sim A :=
  fun g => match r with Ok a => Ok (a, g) | Raise e => Raise e end.

(** A number below [n], consuming one raw draw. *)
Definition randbelow (n : nat) : Sim nat :=
  fun g => Ok (g 0 mod n, fun i => g (S i)).

(** [random.randint(a, b)]. *)
Definition randint (a b : Z) : Sim Z :=
  if (b <? a)%Z then lift (Raise ValueError)
  else j <- randbelow (Z.to_nat (b - a + 1)) ;; ret (a + Z.of_nat j)%Z.

Fixpoint remove_at {A : Type} (j : nat) (l : list A) : list A :=
  match l, j with
  | [], _ => []
  | _ :: l', O => l'
  | x :: l', S j' => x :: remove_at j' l'
  end.

(** [k] successive draws, each from the positions not drawn before. *)
Fixpoint draw_without_replacement {A : Type} (pool : list A) (k : nat)
    : Sim (list A) :=
  match k with
  | O => ret []
  | S k' =>
      j <- randbelow (length pool) ;;
      x <- lift (py_getitem pool (Z.of_nat j)) ;;
      xs <- draw_without_replacement (remove_at j pool) k' ;;
      ret (x :: xs)
  end.

(** [random.sample(population, k)]: the elements at [k] pairwise distinct
    positions of [population], in the order drawn; a [ValueError] when [k]
    is negative or exceeds the length. *)
Definition sample {A : Type} (population : list A) (k : Z) : Sim (list A) :=
  if ((0 <=? k)%Z && (k <=? len population)%Z)%bool
  then draw_without_replacement population (Z.to_nat k)
  else lift (Raise ValueError).

(** ** The simulator *)

Definition Case : Type := (Z * Z)%type.
Definition Individual : Type := list Case.
Definition Population : Type := list Individual.
Definition SimulationHistory : Type := list Population.

Definition TOURNAMENT_SIZE : Z := 7.

Definition generate_initial_error_vector (num_cases : nat) : Sim Individual :=
  repeatM num_cases (e <- randint 0 9999 ;; ret (0%Z, e)).

Definition generate_initial_population (p num_cases : nat) : Sim Population :=
  repeatM p (generate_initial_error_vector num_cases).

(** The key of the tournament: [sum([case_states[1] for ...])]. *)
Definition total_error (individual : Individual) : Z :=
  py_sum (map (fun case_states => snd case_states) individual).

Definition tournament_selection (population : Population) : Sim Individual :=
  candidates <- sample population TOURNAMENT_SIZE ;;
  lift (py_max total_error candidates).

Definition downsample (population : Population) (rate : Q) : Sim (list nat) :=
  first <- lift (py_getitem population 0) ;;
  let num_downsampled_cases := py_int (rate * inject_Z (len first)) in
  cases_to_replace <- sample (seq 0 (length first)) num_downsampled_cases ;;
  ret (py_sorted Nat.leb cases_to_replace).

Definition get_new_generation_age (population : Population) : result Z :=
  first <- py_getitem population 0 ;;
  oldest <- py_max (fun tag => tag)
              (map (fun case_specs => fst case_specs) first) ;;
  ret (oldest + 1)%Z.

(** [case_id in cases_to_replace]. *)
Definition is_in (case_id : nat) (cases_to_replace : list nat) : bool :=
  existsb (Nat.eqb case_id) cases_to_replace.

(** The body of the loop over the parents: the child of one parent. *)
Definition vary (new_generation_age : Z) (cases_to_replace : list nat)
    (parent : Individual) : Sim Individual :=
  mapM (fun case_id =>
          if is_in case_id cases_to_replace
          then e <- randint 0 9999 ;; ret (new_generation_age, e)
          else lift (py_getitem parent (Z.of_nat case_id)))
       (seq 0 (length parent)).

Definition select_and_vary (population : Population)
    (cases_to_replace : list nat) : Sim Population :=
  selected_to_vary <-
    repeatM (length population) (tournament_selection population) ;;
  new_generation_age <- lift (get_new_generation_age population) ;;
  mapM (vary new_generation_age cases_to_replace) selected_to_vary.

Definition simulate_one_generation (population : Population)
    (downsample_rate : Q) : Sim Population :=
  cases_to_replace <- downsample population downsample_rate ;;
  select_and_vary population cases_to_replace.

(** The loop of [simualte_evolution], [n] generations still to run. *)
Fixpoint evolve (n : nat) (downsample_rate : Q)
    (populations_of_generations : SimulationHistory) : Sim SimulationHistory :=
  match n with
  | O => ret populations_of_generations
  | S n' =>
      latest <- lift (py_getitem populations_of_generations
                        (len populations_of_generations - 1)) ;;
      next <- simulate_one_generation latest downsample_rate ;;
      evolve n' downsample_rate (populations_of_generations ++ [next])
  end.

Definition simualte_evolution (num_generations pop_size num_cases : nat)
    (downsample_rate : Q) : Sim SimulationHistory :=
  initial <- generate_initial_population pop_size num_cases ;;
  evolve num_generations downsample_rate [initial].

(** ** List objects that are mutated in place *)

Definition loc : Type := nat.

Record heap : Type := mkHeap { cell : loc -> list Z; fresh : loc }.

(** Analysis code: the heap survives an exception. *)
Definition Ana (A : Type) : Type := heap -> heap * result A.

#[export] Instance Monad_Ana : Monad Ana := {
  ret := fun A a h => (h, Ok a);
  bind := fun A B m k h =>
    match m h with
    | (h', Ok a) => k a h'
    | (h', Raise e) => (h', Raise e)
    end
}.

Definition lift_ana {A : Type} (r : result A) : Ana A := fun h => (h, r).

Definition set_cell (r : loc) (l : list Z) (h : heap) : heap :=
  mkHeap (fun r' => if r' =? r then l else cell h r') (fresh h).

(** A list display or comprehension: a new list object. *)
Definition new_list (l : list Z) : Ana loc :=
  fun h => (set_cell (fresh h) l (mkHeap (cell h) (S (fresh h))), Ok (fresh h)).

Definition read_list (r : loc) : Ana (list Z) :=
  fun h => (h, Ok (cell h r)).

(** [r.sort()]. *)
Definition list_sort (r : loc) : Ana unit :=
  fun h => (set_cell r (py_sorted Z.leb (cell h r)) h, Ok tt).

(** ** The statistical verifier *)

Definition cases_from_ancestor (individual : Individual) (ancestor : Z)
    : list Case :=
  filter (fun case => (fst case =? ancestor)%Z) individual.

Definition cases_from_ancestors (individual : Individual)
    (interested_ancestors : list Z) : list (list Case) :=
  map (fun ancestor => cases_from_ancestor individual ancestor)
      interested_ancestors.

Definition percent_cases_from_ancestors_at_specified_generation
    (results : SimulationHistory) (target_generation : Z)
    (interested_ancestors : loc) : Ana (list (list (Z * Q))) :=
  list_sort interested_ancestors ;;
  ancestors <- read_list interested_ancestors ;;
  lift_ana
    (targeted_population <- py_getitem results target_generation ;;
     first <- py_getitem targeted_population 0 ;;
     let num_cases := len first in
     let ancestory_cases_per_individual :=
       map (fun individual => cases_from_ancestors individual ancestors)
           targeted_population in
     mapM (fun individual_ancestory =>
             mapM (fun ancestory_cases_id =>
                     ancestor <- py_getitem ancestors
                                   (Z.of_nat ancestory_cases_id) ;;
                     cases <- py_getitem individual_ancestory
                                (Z.of_nat ancestory_cases_id) ;;
                     rate <- py_truediv (inject_Z (len cases))
                               (inject_Z num_cases) ;;
                     ret (ancestor, rate))
                  (seq 0 (length individual_ancestory)))
          ancestory_cases_per_individual).

Fixpoint set_at {A : Type} (i : nat) (x : A) (l : list A) : list A :=
  match l, i with
  | [], _ => []
  | _ :: l', O => x :: l'
  | y :: l', S i' => y :: set_at i' x l'
  end.

Definition percent_cases_above_ancestor (results : SimulationHistory)
    (target_generation targeted_ancestors : Z) : Ana Q :=
  ancestors <- new_list (py_range targeted_ancestors (target_generation + 1)) ;;
  percents_from_ancestor_to_target <-
    percent_cases_from_ancestors_at_specified_generation
      results target_generation ancestors ;;
  lift_ana
    (first <- py_getitem percents_from_ancestor_to_target 0 ;;
     let percentages_in_nontarget_ancestory_range :=
       repeat ([] : list Q) (length first) in
     filled <-
       foldM (fun buckets individual =>
                foldM (fun buckets ancestor_id =>
                         bucket <- py_getitem buckets (Z.of_nat ancestor_id) ;;
                         entry <- py_getitem individual
                                    (Z.of_nat ancestor_id) ;;
                         ret (set_at ancestor_id (bucket ++ [snd entry])
                                buckets))
                      (seq 0 (length individual)) buckets)
             percents_from_ancestor_to_target
             percentages_in_nontarget_ancestory_range ;;
     averages <-
       mapM (fun ancestor =>
               py_truediv (py_fsum ancestor) (inject_Z (len ancestor)))
            filled ;;
     ret (1 - py_fsum averages)%Q).

Definition phylogeny_threshold_estimation (d : Q) (n : Z) : result Q :=
  if (n >=? 0)%Z then Ok (1 - (1 - d) ^ n)%Q else Raise AssertionError.

(** ** Specification vocabulary *)

(** Partial correctness: every value the computation returns satisfies [P]. *)
Definition post {A : Type} (m : Sim A) (P : A -> Prop) : Prop :=
  forall g a g', m g = Ok (a, g') -> P a.

(** Total correctness: from every state of the random source the computation
    returns, and the value satisfies [P]. *)
Definition returns {A : Type} (m : Sim A) (P : A -> Prop) : Prop :=
  forall g, exists a g', m g = Ok (a, g') /\ P a.

(** [xs] sits in [pool] at the pairwise distinct positions [slots]. *)
Definition drawn_from {A : Type} (pool : list A) (slots : list nat)
    (xs : list A) : Prop :=
  NoDup slots /\ Forall2 (fun i x => nth_error pool i = Some x) slots xs.

Definition skip (j i : nat) : nat := if i <? j then i else S i.

Definition unskip (j i : nat) : nat := if i <? j then i else i - 1.

(** The random source whose next raw draw is [x], followed by those of [g]. *)
Definition push (x : nat) (g : rng) : rng :=
  fun i => match i with O => x | S i' => g i' end.

(** What [select_and_vary] puts at index [case_id] of a child of [parent]. *)
Definition case_of (new_generation_age : Z) (cases_to_replace : list nat)
    (parent : Individual) (case_id : nat) (c : Case) : Prop :=
  if is_in case_id cases_to_replace
  then fst c = new_generation_age /\ (0 <= snd c <= 9999)%Z
  else nth_error parent case_id = Some c.

Definition child_of (new_generation_age : Z) (cases_to_replace : list nat)
    (parent child : Individual) : Prop :=
  Forall2 (case_of new_generation_age cases_to_replace parent)
    (seq 0 (length parent)) child.

(** Every Individual of the population has [num_cases] cases. *)
Definition well_formed (pop_size num_cases : nat) (population : Population)
    : Prop :=
  length population = pop_size /\
  Forall (fun individual => length individual = num_cases) population.

(** The initial population: every origin tag is 0, every error value is in
    [[0,9999]]. *)
Definition freshly_generated (population : Population) : Prop :=
  Forall (Forall (fun c : Case => fst c = 0%Z /\ (0 <= snd c <= 9999)%Z))
    population.

(** The number of cases replaced in every generation. *)
Definition replaced_per_generation (rate : Q) (num_cases : nat) : nat :=
  Z.to_nat (py_int (rate * inject_Z (Z.of_nat num_cases))).

(** The newest origin tag present in generation [g] when [k] cases are
    replaced per generation. *)
Definition stamp (k g : nat) : Z := if k =? 0 then 0%Z else Z.of_nat g.

(** The Individuals of generation [g] evolve in lockstep: they have the same
    length, origin tags between 0 and the stamp of the generation, and the
    same number of cases carrying that stamp. *)
Definition lockstep (num_cases k g : nat) (population : Population) : Prop :=
  Forall (fun individual =>
            length individual = num_cases /\
            Forall (fun c : Case => (0 <= fst c <= stamp k g)%Z) individual /\
            length (cases_from_ancestor individual (stamp k g)) =
              if (stamp k g =? 0)%Z then num_cases else k)
         population.

(** [max(origin for (origin, _) in individual)]. *)
Definition max_origin (individual : Individual) : result Z :=
  py_max (fun tag => tag) (map fst individual).

(** The loop of [simualte_evolution] from population [p] and random state
    [g]: each entry of the trace is what [simulate_one_generation] returns on
    the population and random state before it. *)
Fixpoint steps (rate : Q) (g : rng) (p : Population)
    (trace : list (Population * rng)) : Prop :=
  match trace with
  | [] => True
  | (p1, g1) :: trace' =>
      simulate_one_generation p rate g = Ok (p1, g1) /\
      steps rate g1 p1 trace'
  end.

(** All Individuals of the population have the same maximum origin tag. *)
Definition shares_max_origin (population : Population) : Prop :=
  forall a b, In a population -> In b population ->
  max_origin a = max_origin b.

(** The maximum origin tag over all cases of all Individuals. *)
Definition max_origin_of_population (population : Population) : result Z :=
  py_max (fun tag => tag) (concat (map (map fst) population)).

(** ** Sample data *)

Definition demo_rng : rng := fun i => 5 * i + 3.

Definition demo_individual (e : Z) : Individual :=
  [(0, e); (0, e + 1); (0, e + 2); (0, e + 3)]%Z.

Definition demo_population : Population :=
  map demo_individual [10; 20; 30; 40; 50; 60; 70; 80]%Z.

(** Seven Individuals of one case each; the last one carries origin tag 5,
    the others origin tag 0. *)
Definition skewed_population : Population :=
  [[(0, 1)]; [(0, 2)]; [(0, 3)]; [(0, 4)]; [(0, 5)]; [(0, 6)]; [(5, 7)]]%Z.

Definition demo_heap : heap := mkHeap (fun _ => [3; 1; 2]%Z) 1.

(** ** Further specification vocabulary *)

(** Every error value of the population is in [[0,9999]]. *)
Definition errors_in_range (population : Population) : Prop :=
  Forall (Forall (fun c : Case => (0 <= snd c <= 9999)%Z)) population.

(** All Individuals of the population carry the same origin tags, index by
    index. *)
Definition same_origins (population : Population) : Prop :=
  forall a b, In a population -> In b population -> map fst a = map fst b.

(** The origin tags of a child, from those of its parent. *)
Definition child_origins (new_generation_age : Z) (cases_to_replace : list nat)
    (origins : list Z) : list Z :=
  map (fun case_id =>
         if is_in case_id cases_to_replace then new_generation_age
         else nth case_id origins 0%Z)
      (seq 0 (length origins)).

(** [origin in ancestors]. *)
Definition origin_in (ancestors : list Z) (c : Case) : bool :=
  existsb (Z.eqb (fst c)) ancestors.


(** The fraction of the cases of [individual] that come from [ancestor],
    relative to [num_cases]. *)
Definition ancestry_rate (num_cases : Z) (individual : Individual)
    (ancestor : Z) : Q :=
  (inject_Z (len (cases_from_ancestor individual ancestor))
   / inject_Z num_cases)%Q.

(** [b ++ [snd e]] bucket by bucket. *)
Definition append_row (buckets : list (list Q)) (row : list (Z * Q))
    : list (list Q) :=
  map (fun be => fst be ++ [snd (snd be)]) (combine buckets row).




(** The body of the loop of [simualte_evolution]: one more population is
    bred from the last one of the history and appended to it. *)
Definition extend_history (downsample_rate : Q)
    (populations_of_generations : SimulationHistory)
    : Sim SimulationHistory :=
  latest <- lift (py_getitem populations_of_generations
                    (len populations_of_generations - 1)) ;;
  next <- simulate_one_generation latest downsample_rate ;;
  ret (populations_of_generations ++ [next]).

(** * Verification *)

(** ** Reasoning about [Sim] computations *)

Lemma bind_Ok {A B : Type} (m : Sim A) (k : A -> Sim B) g b g' :
  (x <- m ;; k x) g = Ok (b, g') ->
  exists a g1, m g = Ok (a, g1) /\ k a g1 = Ok (b, g').
Proof.
  cbn. destruct (m g) as [[a g1]|e]; [|discriminate].
  intros Hk. now exists a, g1.
Qed.

Lemma lift_Ok {A : Type} (r : result A) g a g' :
  lift r g = Ok (a, g') -> r = Ok a /\ g' = g.
Proof. destruct r; cbn; intros H; inversion H; auto. Qed.

Lemma returns_post {A : Type} (m : Sim A) (P : A -> Prop) :
  returns m P -> post m P.
Proof.
  intros H g a g' Hm. destruct (H g) as (a' & g'' & Hm' & HP).
  rewrite Hm in Hm'. now inversion Hm'; subst.
Qed.

Lemma post_weaken {A : Type} (m : Sim A) (P Q : A -> Prop) :
  post m P -> (forall a, P a -> Q a) -> post m Q.
Proof. intros H HPQ g a g' Hm. eauto. Qed.

Lemma post_conj {A : Type} (m : Sim A) (P Q : A -> Prop) :
  post m P -> post m Q -> post m (fun a => P a /\ Q a).
Proof. intros HP HQ g a g' Hm. split; eauto. Qed.

Lemma returns_weaken {A : Type} (m : Sim A) (P Q : A -> Prop) :
  returns m P -> (forall a, P a -> Q a) -> returns m Q.
Proof.
  intros H HPQ g. destruct (H g) as (a & g' & Hm & HP). eauto.
Qed.

Lemma post_ret {A : Type} (a : A) (P : A -> Prop) :
  P a -> post (ret a) P.
Proof. intros HP g a' g' H. cbn in H. now inversion H; subst. Qed.

Lemma returns_ret {A : Type} (a : A) (P : A -> Prop) :
  P a -> returns (ret a) P.
Proof. intros HP g. exists a, g. now split. Qed.

Lemma post_bind {A B : Type} (m : Sim A) (k : A -> Sim B)
    (P : A -> Prop) (Q : B -> Prop) :
  post m P -> (forall a, P a -> post (k a) Q) ->
  post (x <- m ;; k x) Q.
Proof.
  intros Hm Hk g b g' H. apply bind_Ok in H as (a & g1 & H1 & H2).
  eapply Hk; eauto.
Qed.

Lemma returns_bind {A B : Type} (m : Sim A) (k : A -> Sim B)
    (P : A -> Prop) (Q : B -> Prop) :
  returns m P -> (forall a, P a -> returns (k a) Q) ->
  returns (x <- m ;; k x) Q.
Proof.
  intros Hm Hk g. destruct (Hm g) as (a & g1 & H1 & HP).
  destruct (Hk a HP g1) as (b & g2 & H2 & HQ).
  exists b, g2. split; [|exact HQ]. cbn. now rewrite H1.
Qed.

Lemma post_lift {A : Type} (r : result A) (P : A -> Prop) :
  (forall a, r = Ok a -> P a) -> post (lift r) P.
Proof. intros H g a g' Hl. apply lift_Ok in Hl as [-> _]. now apply H. Qed.

Lemma returns_lift {A : Type} (r : result A) (a : A) (P : A -> Prop) :
  r = Ok a -> P a -> returns (lift r) P.
Proof. intros -> HP g. exists a, g. now split. Qed.

Lemma post_repeatM {A : Type} (m : Sim A) (P : A -> Prop) (n : nat) :
  post m P -> post (repeatM n m) (fun l => length l = n /\ Forall P l).
Proof.
  intros Hm. induction n as [|n IH]; cbn [repeatM].
  - apply post_ret. auto.
  - eapply post_bind; [exact Hm|]. intros y Hy.
    eapply post_bind; [exact IH|]. intros ys [Hlen Hys].
    apply post_ret. cbn. split; [congruence | now constructor].
Qed.

Lemma returns_repeatM {A : Type} (m : Sim A) (P : A -> Prop) (n : nat) :
  returns m P -> returns (repeatM n m) (fun l => length l = n /\ Forall P l).
Proof.
  intros Hm. induction n as [|n IH]; cbn [repeatM].
  - apply returns_ret. auto.
  - eapply returns_bind; [exact Hm|]. intros y Hy.
    eapply returns_bind; [exact IH|]. intros ys [Hlen Hys].
    apply returns_ret. cbn. split; [congruence | now constructor].
Qed.

Lemma post_mapM {A B : Type} (f : A -> Sim B) (R : A -> B -> Prop)
    (l : list A) :
  (forall x, In x l -> post (f x) (R x)) ->
  post (mapM f l) (Forall2 R l).
Proof.
  induction l as [|x l IH]; intros Hf; cbn [mapM].
  - apply post_ret. constructor.
  - eapply post_bind; [apply Hf; now left|]. intros y Hy.
    eapply post_bind; [apply IH; intros; apply Hf; now right|].
    intros ys Hys. apply post_ret. now constructor.
Qed.

Lemma returns_mapM {A B : Type} (f : A -> Sim B) (R : A -> B -> Prop)
    (l : list A) :
  (forall x, In x l -> returns (f x) (R x)) ->
  returns (mapM f l) (Forall2 R l).
Proof.
  induction l as [|x l IH]; intros Hf; cbn [mapM].
  - apply returns_ret. constructor.
  - eapply returns_bind; [apply Hf; now left|]. intros y Hy.
    eapply returns_bind; [apply IH; intros; apply Hf; now right|].
    intros ys Hys. apply returns_ret. now constructor.
Qed.

(** ** Indexing *)

Lemma py_getitem_nat {A : Type} (l : list A) (i : nat) :
  py_getitem l (Z.of_nat i) =
  match nth_error l i with Some x => Ok x | None => Raise IndexError end.
Proof.
  unfold py_getitem.
  destruct (Z.ltb_spec (Z.of_nat i) 0); [lia|].
  destruct (Z.ltb_spec (Z.of_nat i) 0); [lia|].
  now rewrite Nat2Z.id.
Qed.

Lemma py_getitem_0 {A : Type} (l : list A) :
  py_getitem l 0 =
  match l with x :: _ => Ok x | [] => Raise IndexError end.
Proof.
  change 0%Z with (Z.of_nat 0). rewrite py_getitem_nat. now destruct l.
Qed.

Lemma py_getitem_last {A : Type} (l : list A) (x : A) :
  py_getitem (l ++ [x]) (len (l ++ [x]) - 1) = Ok x.
Proof.
  unfold len. rewrite length_app. cbn [length].
  replace (Z.of_nat (length l + 1) - 1)%Z with (Z.of_nat (length l)) by lia.
  rewrite py_getitem_nat, nth_error_app2, Nat.sub_diag by lia. reflexivity.
Qed.

(** ** Sampling without replacement *)

Lemma remove_at_length {A : Type} (l : list A) (j : nat) :
  j < length l -> length (remove_at j l) = length l - 1.
Proof.
  revert j. induction l as [|x l IH]; intros [|j] Hj; cbn in *; try lia.
  rewrite IH by lia. lia.
Qed.

Lemma remove_at_nth {A : Type} (l : list A) (j i : nat) :
  nth_error (remove_at j l) i = nth_error l (skip j i).
Proof.
  revert j i. induction l as [|x l IH]; intros j i.
  - replace (remove_at j []) with (@nil A) by now destruct j.
    now destruct i, (skip j _).
  - destruct j as [|j]; [reflexivity|].
    destruct i as [|i]; [reflexivity|].
    cbn [remove_at nth_error]. rewrite IH. unfold skip.
    change (S i <? S j) with (i <? j). now destruct (i <? j).
Qed.

Lemma skip_neq (j i : nat) : skip j i <> j.
Proof. unfold skip. destruct (Nat.ltb_spec i j); lia. Qed.

Lemma skip_inj (j a b : nat) : skip j a = skip j b -> a = b.
Proof.
  unfold skip. destruct (Nat.ltb_spec a j), (Nat.ltb_spec b j); lia.
Qed.

Lemma NoDup_skip (j : nat) (slots : list nat) :
  NoDup slots -> NoDup (j :: map (skip j) slots).
Proof.
  intros Hnd. constructor.
  - rewrite in_map_iff. intros (i & Hi & _). now apply skip_neq in Hi.
  - induction Hnd as [|i slots Hi Hnd IH]; cbn; constructor; auto.
    rewrite in_map_iff. intros (i' & Heq & Hin).
    apply skip_inj in Heq. congruence.
Qed.

Lemma drawn_from_cons {A : Type} (pool : list A) (j : nat) (x : A)
    (slots : list nat) (xs : list A) :
  nth_error pool j = Some x ->
  drawn_from (remove_at j pool) slots xs ->
  drawn_from pool (j :: map (skip j) slots) (x :: xs).
Proof.
  intros Hx [Hnd Hall]. split; [now apply NoDup_skip|].
  constructor; [exact Hx|].
  induction Hall as [|i y slots xs Hy Hall IH]; cbn; constructor.
  - now rewrite <- remove_at_nth.
  - apply IH. now inversion Hnd.
Qed.

Lemma randbelow_returns (n : nat) :
  0 < n -> returns (randbelow n) (fun j => j < n).
Proof.
  intros Hn g. eexists _, _. split; [reflexivity|].
  apply Nat.mod_upper_bound. lia.
Qed.

Lemma draw_without_replacement_returns {A : Type} (k : nat) :
  forall pool : list A, k <= length pool ->
  returns (draw_without_replacement pool k)
    (fun xs => length xs = k /\ exists slots, drawn_from pool slots xs).
Proof.
  induction k as [|k IH]; intros pool Hk; cbn [draw_without_replacement].
  - apply returns_ret. split; [reflexivity|].
    exists []. split; constructor.
  - eapply returns_bind; [apply randbelow_returns; lia|].
    intros j Hj. cbn beta in Hj.
    destruct (nth_error pool j) as [x|] eqn:Hx;
      [|apply nth_error_None in Hx; lia].
    eapply returns_bind.
    { apply returns_lift with (a := x) (P := eq x); [|reflexivity].
      now rewrite py_getitem_nat, Hx. }
    intros ? <-.
    eapply returns_bind.
    { apply IH. rewrite remove_at_length by exact Hj. lia. }
    intros xs [Hlen [slots Hslots]]. apply returns_ret.
    split; [cbn; congruence|].
    eexists. eapply drawn_from_cons; eauto.
Qed.

Lemma sample_returns {A : Type} (population : list A) (k : Z) :
  (0 <= k <= len population)%Z ->
  returns (sample population k)
    (fun xs => length xs = Z.to_nat k /\
               exists slots, drawn_from population slots xs).
Proof.
  intros Hk. unfold sample.
  destruct (Z.leb_spec 0 k); [|lia].
  destruct (Z.leb_spec k (len population)); [|lia].
  cbn [andb]. apply draw_without_replacement_returns.
  unfold len in Hk. lia.
Qed.

Lemma sample_raises {A : Type} (population : list A) (k : Z) (g : rng) :
  (k < 0 \/ len population < k)%Z ->
  sample population k g = Raise ValueError.
Proof.
  intros Hk. unfold sample.
  destruct (Z.leb_spec 0 k); destruct (Z.leb_spec k (len population));
    cbn [andb]; try reflexivity; lia.
Qed.

Lemma sample_post {A : Type} (population : list A) (k : Z) :
  post (sample population k)
    (fun xs => (0 <= k <= len population)%Z /\ length xs = Z.to_nat k /\
               exists slots, drawn_from population slots xs).
Proof.
  destruct (Z_le_dec 0 k) as [H0|H0];
    [destruct (Z_le_dec k (len population)) as [H1|H1]|].
  - apply returns_post. eapply returns_weaken;
      [apply sample_returns; lia|]. cbn. intuition.
  - intros g xs g' H. rewrite sample_raises in H by lia. discriminate.
  - intros g xs g' H. rewrite sample_raises in H by lia. discriminate.
Qed.

Lemma randbelow_push (n x : nat) (g : rng) :
  x < n -> randbelow n (push x g) = Ok (x, g).
Proof.
  intros Hx. unfold randbelow. cbn [push]. now rewrite Nat.mod_small.
Qed.

Lemma skip_unskip (j i : nat) : i <> j -> skip j (unskip j i) = i.
Proof.
  intros Hij. unfold skip, unskip.
  destruct (Nat.ltb_spec i j) as [Hlt|Hge].
  - destruct (Nat.ltb_spec i j); lia.
  - destruct (Nat.ltb_spec (i - 1) j); lia.
Qed.

Lemma drawn_from_remove {A : Type} (pool : list A) (j : nat)
    (slots : list nat) (xs : list A) :
  ~ In j slots -> drawn_from pool slots xs ->
  drawn_from (remove_at j pool) (map (unskip j) slots) xs.
Proof.
  intros Hj [Hnd Hall]. split.
  - apply NoDup_map_NoDup_ForallPairs; [|exact Hnd].
    intros a b Ha Hb Heq.
    rewrite <- (@skip_unskip j a), <- (@skip_unskip j b), Heq;
      congruence.
  - clear Hnd. induction Hall as [|i x slots xs Hx Hall IH]; cbn;
      constructor.
    + rewrite remove_at_nth, skip_unskip; [exact Hx|].
      intros ->. apply Hj. now left.
    + apply IH. intros Hin. apply Hj. now right.
Qed.

(** Every choice of distinct positions is the outcome of the draw for some
    random source. *)
Lemma draw_without_replacement_complete {A : Type} (k : nat) :
  forall (slots : list nat) (pool xs : list A),
  length slots = k ->
  drawn_from pool slots xs ->
  exists g g', draw_without_replacement pool k g = Ok (xs, g').
Proof.
  induction k as [|k IH]; intros slots pool xs Hk Hd.
  - destruct slots; [|discriminate]. destruct Hd as [_ Hall].
    inversion Hall; subst. exists demo_rng, demo_rng. reflexivity.
  - destruct slots as [|j slots]; [discriminate|].
    pose proof Hd as [Hnd Hall].
    inversion Hall as [|? x ? xs' Hx Hrest]; subst.
    inversion Hnd as [|? ? Hj Hnd']; subst.
    assert (Hd' : drawn_from pool slots xs') by now split.
    apply (@drawn_from_remove _ pool j slots xs' Hj) in Hd'.
    assert (Hlen : length (map (unskip j) slots) = k)
      by (rewrite length_map; cbn in Hk; lia).
    destruct (IH _ _ _ Hlen Hd') as (g & g' & Hrun).
    exists (push j g), g'. cbn [draw_without_replacement].
    cbn [bind Monad_Sim]. rewrite randbelow_push.
    + rewrite py_getitem_nat, Hx. cbn [lift]. now rewrite Hrun.
    + apply nth_error_Some. congruence.
Qed.

Lemma drawn_from_length {A : Type} (pool : list A) slots xs :
  drawn_from pool slots xs ->
  length xs = length slots /\ length slots <= length pool.
Proof.
  intros [Hnd Hall]. split; [symmetry; eapply Forall2_length; eauto|].
  pose proof (@NoDup_incl_length _ slots (seq 0 (length pool)) Hnd) as Hle.
  rewrite length_seq in Hle. apply Hle.
  intros i Hi. apply in_seq.
  assert (Hsome : exists x, nth_error pool i = Some x).
  { clear Hnd Hle. revert Hi.
    induction Hall as [|j y slots xs Hy Hall IH]; intros Hi.
    - contradiction.
    - destruct Hi as [Hi|Hi]; [subst j; now exists y | now apply IH]. }
  destruct Hsome as [x Hx].
  assert (i < length pool) by (apply nth_error_Some; congruence). lia.
Qed.

(** [random.sample] can return the elements at any [k] pairwise distinct
    positions, in any order. *)
Lemma sample_complete {A : Type} (population : list A) slots xs :
  drawn_from population slots xs ->
  exists g g', sample population (Z.of_nat (length slots)) g = Ok (xs, g').
Proof.
  intros Hd. destruct (drawn_from_length Hd) as [_ Hle].
  destruct (draw_without_replacement_complete eq_refl Hd)
    as (g & g' & Hrun).
  exists g, g'. unfold sample.
  destruct (Z.leb_spec 0 (Z.of_nat (length slots))); [|lia].
  destruct (Z.leb_spec (Z.of_nat (length slots)) (len population));
    [|unfold len in *; lia].
  cbn [andb]. now rewrite Nat2Z.id.
Qed.

Lemma drawn_from_In {A : Type} (pool : list A) slots xs :
  drawn_from pool slots xs -> Forall (fun x => In x pool) xs.
Proof.
  intros [_ Hall]. induction Hall; constructor; auto.
  eapply nth_error_In; eauto.
Qed.

Lemma drawn_from_seq (n : nat) slots xs :
  drawn_from (seq 0 n) slots xs ->
  NoDup xs /\ Forall (fun i => i < n) xs.
Proof.
  intros [Hnd Hall].
  assert (Heq : xs = slots /\ Forall (fun i => i < n) xs).
  { clear Hnd. induction Hall as [|i x slots xs Hx Hall [IH1 IH2]]; [auto|].
    pose proof (nth_error_Some (seq 0 n) i) as Hlt.
    rewrite Hx, length_seq in Hlt.
    assert (Hi : i < n) by (apply Hlt; discriminate).
    rewrite nth_error_seq in Hx.
    destruct (Nat.ltb_spec i n); [|lia]. inversion Hx; subst.
    split; [reflexivity | now constructor]. }
  destruct Heq as [-> Hlt]. now split.
Qed.

(** ** [max] and [sort] *)

Lemma max_by_In {A : Type} (key : A -> Z) (l : list A) :
  forall best, In (max_by key best l) (best :: l).
Proof.
  induction l as [|x l IH]; intros best; cbn [max_by]; [now left|].
  destruct (key best <? key x)%Z.
  - right. apply IH.
  - destruct (IH best) as [H|H]; [now left | now (right; right)].
Qed.

Lemma max_by_ge {A : Type} (key : A -> Z) (l : list A) :
  forall best, Forall (fun x => (key x <= key (max_by key best l))%Z)
                 (best :: l).
Proof.
  induction l as [|x l IH]; intros best; cbn [max_by].
  - constructor; [lia | constructor].
  - destruct (Z.ltb_spec (key best) (key x)) as [Hlt|Hge].
    + specialize (IH x). inversion IH as [|? ? Hx Hl]; subst.
      constructor; [lia | now constructor].
    + specialize (IH best). inversion IH as [|? ? Hb Hl]; subst.
      constructor; [exact Hb | constructor; [lia | exact Hl]].
Qed.

Section SortFacts.
Variable A : Type.
Variable leb : A -> A -> bool.
Hypothesis leb_total : forall x y, leb x y = true \/ leb y x = true.

Lemma insert_sorted_perm (x : A) (l : list A) :
  Permutation (x :: l) (insert_sorted leb x l).
Proof.
  induction l as [|y l IH]; cbn; [reflexivity|].
  destruct (leb x y); [reflexivity|].
  etransitivity; [apply perm_swap|]. now constructor.
Qed.

Lemma py_sorted_perm (l : list A) : Permutation l (py_sorted leb l).
Proof.
  induction l as [|x l IH]; cbn; [reflexivity|].
  etransitivity; [|apply insert_sorted_perm]. now constructor.
Qed.

Lemma insert_sorted_Sorted (x : A) (l : list A) :
  Sorted (fun x y => leb x y = true) l ->
  Sorted (fun x y => leb x y = true) (insert_sorted leb x l).
Proof.
  induction 1 as [|y l Hl IH Hy]; cbn.
  - repeat constructor.
  - destruct (leb x y) eqn:Hxy.
    + constructor; [now constructor | now constructor].
    + constructor; [exact IH|].
      assert (Hyx : leb y x = true)
        by (destruct (leb_total x y); congruence).
      destruct Hy as [|z l Hyz]; cbn; [now constructor|].
      destruct (leb x z); now constructor.
Qed.

Lemma py_sorted_Sorted (l : list A) :
  Sorted (fun x y => leb x y = true) (py_sorted leb l).
Proof.
  induction l as [|x l IH]; cbn; [constructor|].
  now apply insert_sorted_Sorted.
Qed.
End SortFacts.

Lemma py_sorted_nat_ascending (l : list nat) :
  NoDup l -> StronglySorted lt (py_sorted Nat.leb l).
Proof.
  intros Hnd.
  assert (Hs : StronglySorted (fun x y => Nat.leb x y = true)
                 (py_sorted Nat.leb l)).
  { apply Sorted_StronglySorted.
    - intros x y z. rewrite !Nat.leb_le. lia.
    - apply py_sorted_Sorted. intros x y. rewrite !Nat.leb_le. lia. }
  assert (Hnd' : NoDup (py_sorted Nat.leb l)).
  { eapply Permutation_NoDup; [apply py_sorted_perm | exact Hnd]. }
  induction Hs as [|x s Hs IH Hx]; constructor.
  - apply IH. now inversion Hnd'.
  - inversion Hnd' as [|? ? Hnotin _]; subst.
    rewrite Forall_forall in *. intros y Hy.
    specialize (Hx y Hy). assert (x <> y) by (intros ->; contradiction).
    apply Nat.leb_le in Hx. lia.
Qed.

(** ** Tournament selection *)

Lemma tournament_selection_unfold (population : Population) g candidates g1 :
  sample population TOURNAMENT_SIZE g = Ok (candidates, g1) ->
  tournament_selection population g =
  lift (py_max total_error candidates) g1.
Proof. intros H. unfold tournament_selection. cbn. now rewrite H. Qed.

(** C4. On a population of at least seven Individuals,
    [tournament_selection] samples seven Individuals from pairwise distinct
    positions of the population and returns one of these seven candidates
    whose summed error value is maximal among them. *)
Theorem tournament_selection_best_of_seven (population : Population)
    (g : rng) :
  7 <= length population ->
  exists candidates slots g1 winner g',
    sample population TOURNAMENT_SIZE g = Ok (candidates, g1) /\
    length candidates = 7 /\
    drawn_from population slots candidates /\
    tournament_selection population g = Ok (winner, g') /\
    In winner candidates /\
    Forall (fun c => (total_error c <= total_error winner)%Z) candidates.
Proof.
  intros Hsize.
  destruct (@sample_returns _ population TOURNAMENT_SIZE) with (g := g)
    as (candidates & g1 & Hsample & Hlen & slots & Hdrawn).
  { unfold TOURNAMENT_SIZE, len. lia. }
  change (Z.to_nat TOURNAMENT_SIZE) with 7 in Hlen.
  destruct candidates as [|c cs]; [discriminate|].
  exists (c :: cs), slots, g1, (max_by total_error c cs), g1.
  rewrite (tournament_selection_unfold _ _ Hsample).
  repeat split; auto.
  - apply Hdrawn.
  - apply Hdrawn.
  - apply max_by_In.
  - apply max_by_ge.
Qed.

Lemma tournament_selection_best_of_seven_witness :
  7 <= length demo_population /\
  exists candidates slots g1 winner g',
    sample demo_population TOURNAMENT_SIZE demo_rng = Ok (candidates, g1) /\
    length candidates = 7 /\
    drawn_from demo_population slots candidates /\
    tournament_selection demo_population demo_rng = Ok (winner, g') /\
    In winner candidates /\
    Forall (fun c => (total_error c <= total_error winner)%Z) candidates.
Proof.
  assert (Hsize : 7 <= length demo_population) by (cbn; lia).
  split; [exact Hsize|].
  exact (@tournament_selection_best_of_seven demo_population demo_rng
           Hsize).
Defined.

Lemma tournament_selection_returns (population : Population) :
  7 <= length population ->
  returns (tournament_selection population)
    (fun winner => In winner population).
Proof.
  intros Hsize. unfold tournament_selection.
  eapply returns_bind.
  { apply sample_returns. unfold TOURNAMENT_SIZE, len. lia. }
  intros candidates [Hlen [slots Hd]]. cbn beta in Hlen.
  change (Z.to_nat TOURNAMENT_SIZE) with 7 in Hlen.
  destruct candidates as [|c cs]; [discriminate|].
  apply returns_lift with (a := max_by total_error c cs); [reflexivity|].
  apply drawn_from_In in Hd. rewrite Forall_forall in Hd.
  apply Hd, max_by_In.
Qed.

Lemma tournament_selection_post (population : Population) :
  post (tournament_selection population)
    (fun winner => 7 <= length population /\ In winner population).
Proof.
  unfold tournament_selection.
  eapply post_bind; [apply sample_post|].
  intros candidates (Hk & _ & slots & Hd). cbn beta.
  apply post_lift. intros winner Hmax.
  split; [unfold TOURNAMENT_SIZE, len in Hk; lia|].
  destruct candidates as [|c cs]; [discriminate|].
  cbn in Hmax. inversion Hmax; subst.
  apply drawn_from_In in Hd. rewrite Forall_forall in Hd.
  apply Hd, max_by_In.
Qed.

Lemma tournament_selection_raises (population : Population) (g : rng) :
  length population < 7 ->
  tournament_selection population g = Raise ValueError.
Proof.
  intros Hsize. unfold tournament_selection. cbn.
  rewrite sample_raises; [reflexivity|].
  right. unfold TOURNAMENT_SIZE, len. lia.
Qed.

(** ** Downsampling *)

Lemma Qnum_nonneg (q : Q) : (0 <= q)%Q -> (0 <= Qnum q)%Z.
Proof. unfold Qle. cbn. lia. Qed.

Lemma py_int_floor (q : Q) : (0 <= q)%Q -> py_int q = Qfloor q.
Proof.
  intros Hq. destruct q as [n d]. unfold py_int, Qfloor. cbn [Qnum Qden].
  apply Z.quot_div_nonneg; [|lia].
  apply Qnum_nonneg in Hq. exact Hq.
Qed.

Lemma downsample_count_bounds (rate : Q) (n : nat) :
  (0 <= rate <= 1)%Q ->
  (0 <= py_int (rate * inject_Z (Z.of_nat n)) <= Z.of_nat n)%Z /\
  py_int (rate * inject_Z (Z.of_nat n)) =
  Qfloor (rate * inject_Z (Z.of_nat n)).
Proof.
  intros [H0 H1].
  assert (Hn : (0 <= inject_Z (Z.of_nat n))%Q).
  { change 0%Q with (inject_Z 0). rewrite <- Zle_Qle. lia. }
  assert (Hprod : (0 <= rate * inject_Z (Z.of_nat n))%Q)
    by now apply Qmult_le_0_compat.
  rewrite py_int_floor by exact Hprod. split; [split|reflexivity].
  - change 0%Z with (Qfloor 0). now apply Qfloor_resp_le.
  - rewrite <- (Qfloor_Z (Z.of_nat n)) at 2. apply Qfloor_resp_le.
    rewrite <- (Qmult_1_l (inject_Z (Z.of_nat n))) at 2.
    now apply Qmult_le_compat_r.
Qed.

Lemma downsample_post (population : Population) (rate : Q) :
  post (downsample population rate)
    (fun cases =>
       exists first,
         head population = Some first /\
         (0 <= py_int (rate * inject_Z (len first)) <= len first)%Z /\
         length cases = Z.to_nat (py_int (rate * inject_Z (len first))) /\
         NoDup cases /\
         StronglySorted lt cases /\
         Forall (fun case_id => case_id < length first) cases).
Proof.
  unfold downsample.
  eapply post_bind; [apply post_lift; intros first Hfirst; exact Hfirst|].
  intros first Hfirst. cbn beta in Hfirst. rewrite py_getitem_0 in Hfirst.
  destruct population as [|first' rest]; inversion Hfirst; subst first'.
  cbn zeta. eapply post_bind; [apply sample_post|].
  intros cases (Hk & Hlen & slots & Hd). apply post_ret.
  exists first. apply drawn_from_seq in Hd as [Hnd Hlt].
  unfold len in Hk. rewrite length_seq in Hk.
  pose proof (py_sorted_perm Nat.leb cases) as Hperm.
  repeat split.
  - apply Hk.
  - apply Hk.
  - rewrite <- (Permutation_length Hperm). exact Hlen.
  - eapply Permutation_NoDup; eauto.
  - now apply py_sorted_nat_ascending.
  - eapply Permutation_Forall; eauto.
Qed.

Lemma downsample_returns (first : Individual) (rest : Population) (rate : Q) :
  (0 <= rate <= 1)%Q ->
  returns (downsample (first :: rest) rate) (fun _ => True).
Proof.
  intros Hrate. unfold downsample.
  eapply returns_bind.
  { apply returns_lift with (a := first) (P := eq first);
      [now rewrite py_getitem_0 | reflexivity]. }
  intros ? <-. cbn zeta.
  eapply returns_bind.
  { apply sample_returns. unfold len. rewrite length_seq.
    apply (downsample_count_bounds (length first) Hrate). }
  intros cases _. now apply returns_ret.
Qed.



(** ** Selection and variation *)

Lemma is_in_In (case_id : nat) (cases : list nat) :
  is_in case_id cases = true <-> In case_id cases.
Proof.
  unfold is_in. rewrite existsb_exists. split.
  - intros (x & Hin & Heq). apply Nat.eqb_eq in Heq. now subst.
  - intros Hin. exists case_id. split; [exact Hin | apply Nat.eqb_refl].
Qed.

Lemma randint_returns (a b : Z) :
  (a <= b)%Z -> returns (randint a b) (fun e => (a <= e <= b)%Z).
Proof.
  intros Hab. unfold randint. destruct (Z.ltb_spec b a); [lia|].
  eapply returns_bind; [apply randbelow_returns; lia|].
  intros j Hj. cbn beta in Hj. apply returns_ret. lia.
Qed.

Lemma vary_returns (age : Z) (cases : list nat) (parent : Individual) :
  returns (vary age cases parent) (child_of age cases parent).
Proof.
  unfold vary, child_of. apply returns_mapM.
  intros case_id Hin. apply in_seq in Hin. unfold case_of.
  destruct (is_in case_id cases).
  - eapply returns_bind; [apply (@randint_returns 0 9999); lia|].
    intros e He. apply returns_ret. now split.
  - destruct (nth_error parent case_id) as [c|] eqn:Hc;
      [|apply nth_error_None in Hc; lia].
    apply returns_lift with (a := c); [|reflexivity].
    now rewrite py_getitem_nat, Hc.
Qed.

Lemma Forall2_seq_nth {A : Type} (R : nat -> A -> Prop) (l : list A) :
  forall s n, Forall2 R (seq s n) l ->
  length l = n /\
  forall i, i < n -> exists x, nth_error l i = Some x /\ R (s + i) x.
Proof.
  induction l as [|x l IH]; intros s n H.
  - inversion H as [Hseq|]. destruct n; [|discriminate].
    split; [reflexivity | lia].
  - destruct n as [|n]; [inversion H|]. cbn [seq] in H.
    inversion H as [|? ? ? ? Hx Hl]; subst.
    destruct (IH _ _ Hl) as [Hlen Hnth]. split; [cbn; congruence|].
    intros [|i] Hi.
    + exists x. rewrite Nat.add_0_r. now split.
    + destruct (Hnth i) as (y & Hy & HR); [lia|].
      exists y. rewrite Nat.add_succ_r. now split.
Qed.

Lemma child_of_length (age : Z) cases parent child :
  child_of age cases parent child -> length child = length parent.
Proof. intros H. now apply Forall2_seq_nth in H as [Hlen _]. Qed.

Lemma get_new_generation_age_Ok (population : Population) (age : Z) :
  get_new_generation_age population = Ok age ->
  exists first rest c cs,
    population = first :: rest /\
    map fst first = c :: cs /\
    age = (max_by (fun tag => tag) c cs + 1)%Z.
Proof.
  unfold get_new_generation_age. cbn [bind Monad_result].
  rewrite py_getitem_0. destruct population as [|first rest]; [discriminate|].
  unfold py_max.
  change (fun case_specs : Z * Z => fst case_specs) with (@fst Z Z).
  destruct (map fst first) as [|c cs] eqn:Htags; [discriminate|].
  cbn. intros H. inversion H. now exists first, rest, c, cs.
Qed.

Lemma select_and_vary_post (population : Population) (cases : list nat) :
  post (select_and_vary population cases)
    (fun new_population =>
       7 <= length population /\
       exists age parents,
         get_new_generation_age population = Ok age /\
         length parents = length population /\
         Forall (fun parent => In parent population) parents /\
         Forall2 (child_of age cases) parents new_population).
Proof.
  unfold select_and_vary.
  eapply post_bind;
    [apply post_repeatM, tournament_selection_post|].
  intros parents [Hlen Hparents].
  eapply post_bind; [apply post_lift; intros age Hage; exact Hage|].
  intros age Hage. cbn beta in Hage.
  eapply post_weaken.
  { apply post_mapM. intros parent _.
    apply returns_post, vary_returns. }
  intros new_population Hchildren. cbn beta.
  assert (Hsize : 7 <= length population).
  { apply get_new_generation_age_Ok in Hage
      as (first & rest & _ & _ & -> & _).
    destruct parents as [|p ps]; [discriminate|].
    inversion Hparents as [|? ? [Hp _] _]. exact Hp. }
  split; [exact Hsize|]. exists age, parents. repeat split; auto.
  eapply Forall_impl; [|exact Hparents]. now intros p [_ Hp].
Qed.

Lemma select_and_vary_returns (population : Population) (cases : list nat)
    (first : Individual) :
  7 <= length population ->
  head population = Some first -> first <> [] ->
  returns (select_and_vary population cases) (fun _ => True).
Proof.
  intros Hsize Hhead Hne. unfold select_and_vary.
  eapply returns_bind;
    [apply returns_repeatM, tournament_selection_returns, Hsize|].
  intros parents _.
  destruct population as [|first' rest]; [discriminate|].
  cbn in Hhead. inversion Hhead; subst first'.
  destruct first as [|c cs]; [contradiction|].
  eapply returns_bind.
  { eapply returns_lift with (P := fun _ => True); [|exact I].
    unfold get_new_generation_age. cbn [bind Monad_result].
    rewrite py_getitem_0. reflexivity. }
  intros age _.
  eapply returns_weaken.
  { apply returns_mapM. intros parent _. apply vary_returns. }
  auto.
Qed.

Lemma raises_repeatM {A : Type} (m : Sim A) (n : nat) (e : exn) :
  (forall g, m g = Raise e) -> forall g, repeatM (S n) m g = Raise e.
Proof. intros Hm g. cbn. now rewrite Hm. Qed.



(** ** One generation *)

Lemma simulate_one_generation_post (population : Population) (rate : Q) :
  post (simulate_one_generation population rate)
    (fun new_population =>
       exists first cases age parents,
         head population = Some first /\
         7 <= length population /\
         length cases = replaced_per_generation rate (length first) /\
         NoDup cases /\
         Forall (fun case_id => case_id < length first) cases /\
         get_new_generation_age population = Ok age /\
         length parents = length population /\
         Forall (fun parent => In parent population) parents /\
         Forall2 (child_of age cases) parents new_population).
Proof.
  unfold simulate_one_generation.
  eapply post_bind; [apply downsample_post|].
  intros cases (first & Hhead & _ & Hcount & Hnd & _ & Hlt).
  eapply post_weaken; [apply select_and_vary_post|].
  intros new_population (Hsize & age & parents & Hage & Hlen & Hin & Hch).
  exists first, cases, age, parents. repeat split; auto.
Qed.

Lemma simulate_one_generation_well_formed pop_size num_cases population rate :
  well_formed pop_size num_cases population ->
  post (simulate_one_generation population rate)
    (well_formed pop_size num_cases).
Proof.
  intros [Hsize Hlen].
  eapply post_weaken; [apply simulate_one_generation_post|].
  intros new_population
    (first & cases & age & parents & _ & _ & _ & _ & _ & _ & Hpl & Hin & Hch).
  split.
  - apply Forall2_length in Hch. congruence.
  - rewrite Forall_forall in Hlen, Hin.
    clear Hpl. induction Hch as [|p c ps cs Hc Hch IH]; constructor.
    + apply child_of_length in Hc. rewrite Hc. apply Hlen, Hin. now left.
    + apply IH. intros x Hx. apply Hin. now right.
Qed.

Lemma simulate_one_generation_returns pop_size num_cases population rate :
  well_formed pop_size num_cases population ->
  7 <= pop_size -> 1 <= num_cases -> (0 <= rate <= 1)%Q ->
  returns (simulate_one_generation population rate)
    (well_formed pop_size num_cases).
Proof.
  intros Hwf Hsize Hcases Hrate g.
  assert (Hret : returns (simulate_one_generation population rate)
                   (fun _ => True)).
  { destruct Hwf as [Hps Hlen].
    destruct population as [|first rest]; [cbn in Hps; lia|].
    unfold simulate_one_generation.
    eapply returns_bind; [apply downsample_returns, Hrate|].
    intros cases _.
    apply select_and_vary_returns with (first := first);
      [lia | reflexivity|].
    inversion Hlen as [|? ? Hfirst _]; subst.
    destruct first; [cbn in Hcases; lia | discriminate]. }
  destruct (Hret g) as (new_population & g' & Hrun & _).
  exists new_population, g'. split; [exact Hrun|].
  eapply simulate_one_generation_well_formed; eauto.
Qed.

(** ** Origin tags *)

Lemma cases_from_ancestor_all (individual : Individual) (a : Z) :
  Forall (fun c => fst c = a) individual ->
  cases_from_ancestor individual a = individual.
Proof.
  unfold cases_from_ancestor.
  induction 1 as [|c l Hc Hl IH]; cbn; [reflexivity|].
  rewrite Hc, Z.eqb_refl. now f_equal.
Qed.

Lemma cases_from_ancestor_none (individual : Individual) (a : Z) :
  Forall (fun c => fst c <> a) individual ->
  cases_from_ancestor individual a = [].
Proof.
  unfold cases_from_ancestor.
  induction 1 as [|c l Hc Hl IH]; cbn; [reflexivity|].
  destruct (Z.eqb_spec (fst c) a); [contradiction | exact IH].
Qed.

Lemma max_origin_stamp (individual : Individual) (m : Z) :
  Forall (fun c => (fst c <= m)%Z) individual ->
  cases_from_ancestor individual m <> [] ->
  max_origin individual = Ok m.
Proof.
  intros Hle Hcount.
  assert (Hm : In m (map fst individual)).
  { destruct (cases_from_ancestor individual m) as [|c cs] eqn:Hf;
      [contradiction|].
    assert (Hc : In c (cases_from_ancestor individual m))
      by (rewrite Hf; now left).
    unfold cases_from_ancestor in Hc. apply filter_In in Hc as [Hin Heq].
    apply Z.eqb_eq in Heq. rewrite <- Heq. now apply in_map. }
  assert (Hall : Forall (fun t => (t <= m)%Z) (map fst individual)).
  { rewrite Forall_map. exact Hle. }
  unfold max_origin.
  destruct (map fst individual) as [|t ts]; [contradiction|].
  cbn [py_max]. f_equal.
  pose proof (max_by_In (fun tag => tag) ts t) as Hin.
  pose proof (max_by_ge (fun tag => tag) ts t) as Hge.
  rewrite Forall_forall in Hall, Hge.
  specialize (Hall _ Hin). specialize (Hge _ Hm). cbn beta in Hge. lia.
Qed.

Lemma get_new_generation_age_max (first : Individual) (rest : Population) :
  get_new_generation_age (first :: rest) =
  match max_origin first with
  | Ok oldest => Ok (oldest + 1)%Z
  | Raise e => Raise e
  end.
Proof.
  unfold get_new_generation_age, max_origin. cbn [bind Monad_result].
  rewrite py_getitem_0. reflexivity.
Qed.

Lemma child_of_no_cases (age : Z) (parent child : Individual) :
  child_of age [] parent child -> child = parent.
Proof.
  unfold child_of. intros H.
  apply nth_error_ext. intros i.
  apply Forall2_seq_nth in H as [Hlen Hnth].
  destruct (Nat.lt_ge_cases i (length parent)) as [Hi|Hi].
  - destruct (Hnth i Hi) as (c & Hc & Hcase).
    unfold case_of in Hcase. cbn in Hcase. congruence.
  - transitivity (@None Case).
    + apply nth_error_None. lia.
    + symmetry. now apply nth_error_None.
Qed.

Lemma child_of_tags (age : Z) (cases : list nat) (parent : Individual) :
  forall idxs child,
  Forall2 (case_of age cases parent) idxs child ->
  Forall (fun c => fst c = age \/ In c parent) child.
Proof.
  induction 1 as [|i c idxs child Hc Hrest IH]; constructor; [|exact IH].
  unfold case_of in Hc. destruct (is_in i cases).
  - left. apply Hc.
  - right. eapply nth_error_In, Hc.
Qed.

Lemma child_of_count (age : Z) (cases : list nat) (parent : Individual) :
  Forall (fun c => (fst c < age)%Z) parent ->
  forall idxs child,
  Forall2 (case_of age cases parent) idxs child ->
  length (cases_from_ancestor child age) =
  length (filter (fun i => is_in i cases) idxs).
Proof.
  intros Hold. rewrite Forall_forall in Hold.
  induction 1 as [|i c idxs child Hc Hrest IH]; [reflexivity|].
  unfold cases_from_ancestor in *. cbn [filter].
  unfold case_of in Hc. destruct (is_in i cases).
  - destruct Hc as [-> _]. rewrite Z.eqb_refl. cbn. now f_equal.
  - apply nth_error_In in Hc. specialize (Hold _ Hc).
    destruct (Z.eqb_spec (fst c) age); [lia | exact IH].
Qed.

Lemma replaced_count (cases : list nat) (n : nat) :
  NoDup cases -> Forall (fun i => i < n) cases ->
  length (filter (fun i => is_in i cases) (seq 0 n)) = length cases.
Proof.
  intros Hnd Hlt. apply Permutation_length, NoDup_Permutation.
  - apply NoDup_filter, seq_NoDup.
  - exact Hnd.
  - intros i. rewrite filter_In, in_seq, is_in_In.
    rewrite Forall_forall in Hlt. split; [tauto|].
    intros Hin. specialize (Hlt _ Hin). split; [lia | exact Hin].
Qed.

(** ** The lockstep invariant *)

Lemma stamp_bounds (k g : nat) : (0 <= stamp k g <= Z.of_nat g)%Z.
Proof. unfold stamp. destruct (k =? 0); lia. Qed.

Lemma lockstep_nonempty_stamp num_cases k g individual :
  1 <= num_cases ->
  length (cases_from_ancestor individual (stamp k g)) =
    (if (stamp k g =? 0)%Z then num_cases else k) ->
  cases_from_ancestor individual (stamp k g) <> [].
Proof.
  intros Hn Hcount Hnil. rewrite Hnil in Hcount. cbn in Hcount.
  unfold stamp in Hcount. destruct (Nat.eqb_spec k 0) as [->|Hk].
  - cbn in Hcount. lia.
  - destruct (Z.of_nat g =? 0)%Z; lia.
Qed.

Lemma lockstep_max_origin num_cases k g population individual :
  1 <= num_cases ->
  lockstep num_cases k g population ->
  In individual population ->
  max_origin individual = Ok (stamp k g).
Proof.
  intros Hn Hinv Hin. unfold lockstep in Hinv.
  rewrite Forall_forall in Hinv.
  destruct (Hinv _ Hin) as (_ & Htags & Hcount).
  apply max_origin_stamp.
  - eapply Forall_impl; [|exact Htags]. cbn. intros c Hc. lia.
  - eapply lockstep_nonempty_stamp; eauto.
Qed.

Lemma generate_initial_population_returns (p num_cases : nat) :
  returns (generate_initial_population p num_cases)
    (fun population =>
       well_formed p num_cases population /\ freshly_generated population).
Proof.
  unfold generate_initial_population, generate_initial_error_vector.
  eapply returns_weaken.
  { apply returns_repeatM, returns_repeatM.
    eapply returns_bind; [apply (@randint_returns 0 9999); lia|].
    intros e He. apply returns_ret.
    instantiate (1 := fun c => fst c = 0%Z /\ (0 <= snd c <= 9999)%Z).
    now split. }
  cbn beta. intros population [Hsize Hall]. repeat split; auto.
  - eapply Forall_impl; [|exact Hall]. now intros individual [Hlen _].
  - eapply Forall_impl; [|exact Hall]. now intros individual [_ Htags].
Qed.

Lemma lockstep_initial num_cases k pop_size population :
  well_formed pop_size num_cases population ->
  freshly_generated population ->
  lockstep num_cases k 0 population.
Proof.
  intros [_ Hlen] Hfresh. unfold lockstep, freshly_generated in *.
  assert (Hstamp : stamp k 0 = 0%Z) by (unfold stamp; now destruct (k =? 0)).
  rewrite Hstamp. cbn [Z.eqb].
  rewrite Forall_forall in *. intros individual Hin.
  specialize (Hlen _ Hin). specialize (Hfresh _ Hin).
  repeat split; [exact Hlen| |].
  - eapply Forall_impl; [|exact Hfresh]. cbn. intros c [-> _]. lia.
  - rewrite cases_from_ancestor_all; [exact Hlen|].
    eapply Forall_impl; [|exact Hfresh]. now intros c [Hc _].
Qed.

Lemma lockstep_step num_cases rate g population :
  let k := replaced_per_generation rate num_cases in
  lockstep num_cases k g population ->
  post (simulate_one_generation population rate)
    (lockstep num_cases k (S g)).
Proof.
  intros k Hinv.
  eapply post_weaken; [apply simulate_one_generation_post|].
  intros new_population
    (first & cases & age & parents & Hhead & _ & Hcount & Hnd & Hlt
       & Hage & _ & Hin & Hch).
  destruct population as [|first' rest]; [discriminate|].
  cbn in Hhead. inversion Hhead; subst first'. clear Hhead.
  assert (Hfirst : length first = num_cases).
  { unfold lockstep in Hinv. inversion Hinv as [|? ? [Hl _] _]. exact Hl. }
  rewrite Hfirst in Hcount, Hlt. fold k in Hcount.
  assert (Hn : 1 <= num_cases).
  { apply get_new_generation_age_Ok in Hage
      as (f & r & c & cs & Heq & Htags & _).
    inversion Heq; subst f r.
    assert (Hmap : length (map fst first) = length first)
      by apply length_map.
    rewrite Htags in Hmap. cbn in Hmap. lia. }
  assert (Hnew : age = (stamp k g + 1)%Z).
  { rewrite get_new_generation_age_max in Hage.
    rewrite (@lockstep_max_origin num_cases k g (first :: rest) first)
      in Hage; auto; [|now left].
    now inversion Hage. }
  unfold lockstep in *. rewrite Forall_forall in Hinv, Hin.
  destruct (Nat.eqb_spec k 0) as [Hk|Hk].
  - (* no case is replaced: every child is its parent *)
    assert (Hcases : cases = []) by (destruct cases; [auto | cbn in *; lia]).
    subst cases.
    assert (Hstamp : stamp k (S g) = stamp k g).
    { unfold stamp. now rewrite Hk. }
    rewrite Hstamp. clear Hcount.
    induction Hch as [|p c ps cs Hc Hch IH]; constructor.
    + apply child_of_no_cases in Hc. subst c. apply Hinv, Hin. now left.
    + apply IH. intros x Hx. apply Hin. now right.
  - (* each child carries the new age at exactly the replaced indices *)
    assert (Hstamp : stamp k g = Z.of_nat g).
    { unfold stamp. destruct (Nat.eqb_spec k 0); [contradiction|auto]. }
    assert (Hstamp' : stamp k (S g) = age).
    { unfold stamp. destruct (Nat.eqb_spec k 0); [contradiction|lia]. }
    rewrite Hstamp'.
    assert (Hnz : (age =? 0)%Z = false) by (apply Z.eqb_neq; lia).
    rewrite Hnz.
    induction Hch as [|p c ps cs Hc Hch IH]; constructor.
    + destruct (Hinv p) as (Hlen & Htags & _); [apply Hin; now left|].
      rewrite Forall_forall in Htags.
      pose proof (child_of_length Hc) as Hclen.
      unfold child_of in Hc. repeat split.
      * congruence.
      * apply child_of_tags in Hc. eapply Forall_impl; [|exact Hc].
        cbn beta. intros x [Hx|Hx]; [lia|].
        specialize (Htags _ Hx). cbn beta in Htags. lia.
      * erewrite child_of_count; [|
          |exact Hc].
        -- rewrite Hlen, replaced_count; auto.
        -- rewrite Forall_forall. intros x Hx.
           specialize (Htags _ Hx). cbn beta in Htags. lia.
    + apply IH. intros x Hx. apply Hin. now right.
Qed.

(** ** The generation loop *)

Lemma last_cons_default {A : Type} (l : list A) :
  forall x d, last (x :: l) d = last l x.
Proof.
  induction l as [|y l IH]; intros x d; [reflexivity|].
  change (last (x :: y :: l) d) with (last (y :: l) d).
  rewrite !IH. reflexivity.
Qed.

Lemma evolve_steps (rate : Q) (n : nat) :
  forall hacc p g h g',
  evolve n rate (hacc ++ [p]) g = Ok (h, g') ->
  exists trace,
    length trace = n /\ steps rate g p trace /\
    h = hacc ++ p :: map fst trace /\ g' = last (map snd trace) g.
Proof.
  induction n as [|n IH]; intros hacc p g h g' Hrun.
  - cbn in Hrun. inversion Hrun; subst. exists []. now repeat split.
  - cbn [evolve] in Hrun.
    apply bind_Ok in Hrun as (latest & g0 & Hlatest & Hrun).
    apply lift_Ok in Hlatest as [Hlatest ->].
    rewrite py_getitem_last in Hlatest. inversion Hlatest; subst latest.
    apply bind_Ok in Hrun as (next & g1 & Hstep & Hrun).
    apply IH in Hrun as (trace & Hlen & Hsteps & Hh & Hg).
    exists ((next, g1) :: trace). cbn [length map fst snd steps].
    repeat split; auto.
    + rewrite Hh, <- app_assoc. reflexivity.
    + rewrite Hg. symmetry. apply last_cons_default.
Qed.

Lemma evolve_returns pop_size num_cases rate (n : nat) :
  7 <= pop_size -> 1 <= num_cases -> (0 <= rate <= 1)%Q ->
  forall hacc p,
  well_formed pop_size num_cases p ->
  returns (evolve n rate (hacc ++ [p])) (fun _ => True).
Proof.
  intros Hsize Hcases Hrate.
  induction n as [|n IH]; intros hacc p Hwf; cbn [evolve].
  - now apply returns_ret.
  - eapply returns_bind.
    { apply returns_lift with (a := p) (P := eq p);
        [apply py_getitem_last | reflexivity]. }
    intros ? <-.
    eapply returns_bind;
      [eapply simulate_one_generation_returns; eauto|].
    intros next Hnext. apply IH. exact Hnext.
Qed.

Lemma steps_lockstep num_cases rate (trace : list (Population * rng)) :
  let k := replaced_per_generation rate num_cases in
  forall g gs p,
  lockstep num_cases k g p ->
  steps rate gs p trace ->
  forall i pi, nth_error (p :: map fst trace) i = Some pi ->
  lockstep num_cases k (g + i) pi.
Proof.
  intros k. induction trace as [|[p1 g1] trace IH]; intros g gs p Hinv Hsteps.
  - intros [|[|i]] pi Hnth; cbn in Hnth; try discriminate.
    inversion Hnth; subst. now rewrite Nat.add_0_r.
  - destruct Hsteps as [Hstep Hsteps].
    intros [|i] pi Hnth.
    + cbn in Hnth. inversion Hnth; subst. now rewrite Nat.add_0_r.
    + cbn [nth_error map fst] in Hnth. rewrite Nat.add_succ_r.
      change (S (g + i)) with (S g + i).
      eapply IH; [|exact Hsteps|exact Hnth].
      eapply (@lockstep_step num_cases rate g p Hinv); exact Hstep.
Qed.

Lemma steps_nth (rate : Q) (trace : list (Population * rng)) :
  forall g p, steps rate g p trace ->
  forall i, i < length trace ->
  exists pi pi' gi gi',
    nth_error (p :: map fst trace) i = Some pi /\
    nth_error (p :: map fst trace) (S i) = Some pi' /\
    simulate_one_generation pi rate gi = Ok (pi', gi').
Proof.
  induction trace as [|[p1 g1] trace IH]; intros g p Hsteps i Hi;
    [cbn in Hi; lia|].
  destruct Hsteps as [Hstep Hsteps]. destruct i as [|i].
  - exists p, p1, g, g1. now repeat split.
  - cbn [length] in Hi. destruct (IH _ _ Hsteps i) as
      (pi & pi' & gi & gi' & H1 & H2 & H3); [lia|].
    exists pi, pi', gi, gi'. now repeat split.
Qed.

Lemma simualte_evolution_unfold num_generations pop_size num_cases rate g h g' :
  simualte_evolution num_generations pop_size num_cases rate g = Ok (h, g') ->
  exists initial g0 trace,
    generate_initial_population pop_size num_cases g = Ok (initial, g0) /\
    well_formed pop_size num_cases initial /\
    freshly_generated initial /\
    length trace = num_generations /\
    steps rate g0 initial trace /\
    h = initial :: map fst trace /\
    g' = last (map snd trace) g0.
Proof.
  intros Hrun. unfold simualte_evolution in Hrun.
  apply bind_Ok in Hrun as (initial & g0 & Hinit & Hrun).
  apply (evolve_steps rate num_generations []) in Hrun
    as (trace & Hlen & Hsteps & Hh & Hg).
  exists initial, g0, trace.
  pose proof (returns_post (generate_initial_population_returns
                              pop_size num_cases) g Hinit) as [Hwf Hfresh].
  cbn [app] in Hh. repeat split; auto; apply Hwf.
Qed.

Lemma simualte_evolution_returns num_generations pop_size num_cases rate :
  7 <= pop_size -> 1 <= num_cases -> (0 <= rate <= 1)%Q ->
  returns (simualte_evolution num_generations pop_size num_cases rate)
    (fun _ => True).
Proof.
  intros Hsize Hcases Hrate. unfold simualte_evolution.
  eapply returns_bind;
    [apply generate_initial_population_returns|].
  intros initial [Hwf _].
  apply (evolve_returns num_generations Hsize Hcases Hrate [] Hwf).
Qed.

Lemma simualte_evolution_lockstep
    num_generations pop_size num_cases rate g h g' :
  simualte_evolution num_generations pop_size num_cases rate g = Ok (h, g') ->
  length h = num_generations + 1 /\
  forall i population, nth_error h i = Some population ->
    well_formed pop_size num_cases population /\
    lockstep num_cases (replaced_per_generation rate num_cases) i population.
Proof.
  intros Hrun. apply simualte_evolution_unfold in Hrun
    as (initial & g0 & trace & _ & Hwf & Hfresh & Hlen & Hsteps & -> & _).
  split; [cbn; rewrite length_map; lia|].
  intros i population Hnth. split.
  - clear Hfresh Hlen. revert g0 initial Hwf Hsteps i Hnth.
    induction trace as [|[p1 g1] trace IH]; intros g0 initial Hwf Hsteps i Hnth.
    + destruct i as [|[|i]]; cbn in Hnth; try discriminate.
      now inversion Hnth; subst.
    + destruct Hsteps as [Hstep Hsteps]. destruct i as [|i].
      * cbn in Hnth. now inversion Hnth; subst.
      * eapply (IH g1 p1); [|exact Hsteps|exact Hnth].
        eapply simulate_one_generation_well_formed; eauto.
  - change i with (0 + i).
    eapply steps_lockstep; [|exact Hsteps|exact Hnth].
    eapply lockstep_initial; eauto.
Qed.

(** ** Histories *)

(** C1. With [pop_size >= 7], [num_cases >= 1] and a rate in [[0,1]],
    [simualte_evolution] returns a history, and in the population at every generation index [gi] every
    Individual has [num_cases] cases whose origin generations lie in
    [[0, gi]]. *)
Theorem history_lengths_and_origins
    (num_generations pop_size num_cases : nat) (rate : Q) (g : rng) :
  7 <= pop_size -> 1 <= num_cases -> (0 <= rate <= 1)%Q ->
  exists h g',
    simualte_evolution num_generations pop_size num_cases rate g
      = Ok (h, g') /\
    forall gi population individual,
      nth_error h gi = Some population -> In individual population ->
      length individual = num_cases /\
      Forall (fun c => (0 <= fst c <= Z.of_nat gi)%Z) individual.
Proof.
  intros Hsize Hcases Hrate.
  destruct (simualte_evolution_returns num_generations Hsize Hcases Hrate g)
    as (h & g' & Hrun & _).
  exists h, g'. split; [exact Hrun|].
  intros gi population individual Hnth Hin.
  destruct (simualte_evolution_lockstep _ _ _ _ _ Hrun) as [_ Hinv].
  destruct (Hinv _ _ Hnth) as [_ Hlock].
  unfold lockstep in Hlock. rewrite Forall_forall in Hlock.
  destruct (Hlock _ Hin) as (Hlen & Htags & _).
  split; [exact Hlen|].
  eapply Forall_impl; [|exact Htags]. cbn beta. intros c Hc.
  pose proof (stamp_bounds (replaced_per_generation rate num_cases) gi). lia.
Qed.

Lemma history_lengths_and_origins_witness :
  7 <= 7 /\ 1 <= 3 /\ (0 <= 1 # 2 <= 1)%Q /\
  exists h g',
    simualte_evolution 2 7 3 (1 # 2) demo_rng = Ok (h, g') /\
    forall gi population individual,
      nth_error h gi = Some population -> In individual population ->
      length individual = 3 /\
      Forall (fun c => (0 <= fst c <= Z.of_nat gi)%Z) individual.
Proof.
  assert (Hrate : (0 <= 1 # 2 <= 1)%Q) by (split; discriminate).
  repeat split; try lia; try discriminate.
  apply (@history_lengths_and_origins 2 7 3 (1 # 2) demo_rng); auto.
Defined.

(** C7. With [pop_size >= 7], [num_cases >= 1] and a rate in [[0,1]],
    [simualte_evolution] returns a history of length [num_generations + 1];
    its index 0 is the population that [generate_initial_population]
    returns, with every origin tag 0; and the
    population at index [i + 1] is what [simulate_one_generation] returns on
    the population at index [i], the random source being threaded from one
    generation to the next. *)
Theorem simualte_evolution_history
    (num_generations pop_size num_cases : nat) (rate : Q) (g : rng) :
  7 <= pop_size -> 1 <= num_cases -> (0 <= rate <= 1)%Q ->
  exists h g',
    simualte_evolution num_generations pop_size num_cases rate g
      = Ok (h, g') /\
    length h = num_generations + 1 /\
    exists initial g0 trace,
      generate_initial_population pop_size num_cases g = Ok (initial, g0) /\
      well_formed pop_size num_cases initial /\
      freshly_generated initial /\
      h = initial :: map fst trace /\
      steps rate g0 initial trace /\
      g' = last (map snd trace) g0 /\
      forall i, i < num_generations ->
        exists p p' gi gi',
          nth_error h i = Some p /\ nth_error h (S i) = Some p' /\
          simulate_one_generation p rate gi = Ok (p', gi').
Proof.
  intros Hsize Hcases Hrate.
  destruct (simualte_evolution_returns num_generations Hsize Hcases Hrate g)
    as (h & g' & Hrun & _).
  exists h, g'. split; [exact Hrun|].
  destruct (simualte_evolution_unfold _ _ _ _ _ Hrun)
    as (initial & g0 & trace & Hinit & Hwf & Hfresh & Hlen & Hsteps & Hh & Hg).
  split; [subst h; cbn; rewrite length_map; lia|].
  exists initial, g0, trace. repeat split; auto; try apply Hwf.
  intros i Hi. subst h. eapply steps_nth; [exact Hsteps | lia].
Qed.

Lemma simualte_evolution_history_witness :
  7 <= 8 /\ 1 <= 2 /\ (0 <= 1 # 2 <= 1)%Q /\
  exists h g',
    simualte_evolution 3 8 2 (1 # 2) demo_rng = Ok (h, g') /\
    length h = 3 + 1 /\
    exists initial g0 trace,
      generate_initial_population 8 2 demo_rng = Ok (initial, g0) /\
      well_formed 8 2 initial /\
      freshly_generated initial /\
      h = initial :: map fst trace /\
      steps (1 # 2) g0 initial trace /\
      g' = last (map snd trace) g0 /\
      forall i, i < 3 ->
        exists p p' gi gi',
          nth_error h i = Some p /\ nth_error h (S i) = Some p' /\
          simulate_one_generation p (1 # 2) gi = Ok (p', gi').
Proof.
  assert (Hrate : (0 <= 1 # 2 <= 1)%Q) by (split; discriminate).
  split; [lia|]. split; [lia|]. split; [exact Hrate|].
  apply (@simualte_evolution_history 3 8 2 (1 # 2) demo_rng); auto; lia.
Defined.

Lemma simulate_one_generation_raises (population : Population) rate g :
  length population < 7 ->
  exists e, simulate_one_generation population rate g = Raise e.
Proof.
  intros Hsize.
  destruct (simulate_one_generation population rate g) as [[p g']|e] eqn:Hrun.
  - apply simulate_one_generation_post in Hrun
      as (first & cases & age & parents & _ & Hseven & _). lia.
  - now exists e.
Qed.

(** C8. On a population of fewer than seven Individuals
    [tournament_selection] raises, whatever the random source, and returns no
    Individual; a simulation over such a population that runs at least one
    generation raises as well and returns no history. *)
Theorem tournament_selection_undersized (pop_size : nat) :
  pop_size < 7 ->
  (forall population g,
     length population = pop_size ->
     tournament_selection population g = Raise ValueError) /\
  (forall num_generations num_cases rate g,
     exists e,
       simualte_evolution (S num_generations) pop_size num_cases rate g
         = Raise e).
Proof.
  intros Hsize. split.
  - intros population g Hlen. apply tournament_selection_raises. lia.
  - intros num_generations num_cases rate g. unfold simualte_evolution.
    destruct (generate_initial_population_returns pop_size num_cases g)
      as (initial & g0 & Hinit & [Hlen _] & _).
    cbn [bind Monad_Sim]. rewrite Hinit.
    change [initial] with ([] ++ [initial]). cbn [evolve bind Monad_Sim].
    rewrite py_getitem_last. cbn [lift].
    destruct (@simulate_one_generation_raises initial rate g0) as [e He];
      [lia|].
    exists e. now rewrite He.
Qed.

Lemma tournament_selection_undersized_witness :
  6 < 7 /\
  tournament_selection (firstn 6 demo_population) demo_rng
    = Raise ValueError /\
  exists e, simualte_evolution 1 6 4 (1 # 2) demo_rng = Raise e.
Proof.
  split; [lia|].
  destruct (@tournament_selection_undersized 6) as [Hsel Hsim]; [lia|].
  split; [apply Hsel; reflexivity | apply Hsim].
Defined.

(** ** The shared generation age *)

Lemma py_max_tag_spec (tags : list Z) (m : Z) :
  py_max (fun tag => tag) tags = Ok m <->
  In m tags /\ Forall (fun t => (t <= m)%Z) tags.
Proof.
  destruct tags as [|t ts]; cbn [py_max].
  - split; [discriminate | now intros [[] _]].
  - pose proof (max_by_In (fun tag => tag) ts t) as Hin.
    pose proof (max_by_ge (fun tag => tag) ts t) as Hge.
    split.
    + intros H. inversion H; subst. now split.
    + intros [Hm Hle]. f_equal. rewrite Forall_forall in Hle, Hge.
      specialize (Hle _ Hin). specialize (Hge _ Hm). cbn beta in Hge. lia.
Qed.

Lemma max_origin_of_population_shared (population : Population) (m : Z) :
  population <> [] ->
  Forall (fun individual => max_origin individual = Ok m) population ->
  max_origin_of_population population = Ok m.
Proof.
  intros Hne Hall. unfold max_origin_of_population.
  apply py_max_tag_spec. split.
  - destruct population as [|first rest]; [contradiction|].
    inversion Hall as [|? ? Hfirst _]; subst.
    apply py_max_tag_spec in Hfirst as [Hin _].
    cbn. apply in_or_app. now left.
  - rewrite Forall_forall. intros t Ht.
    apply in_concat in Ht as (tags & Htags & Ht).
    apply in_map_iff in Htags as (individual & <- & Hind).
    rewrite Forall_forall in Hall. specialize (Hall _ Hind).
    apply py_max_tag_spec in Hall as [_ Hle].
    rewrite Forall_forall in Hle. now apply Hle.
Qed.

Lemma history_shares_max_origin
    num_generations pop_size num_cases rate g h g' population :
  simualte_evolution num_generations pop_size num_cases rate g = Ok (h, g') ->
  In population h -> shares_max_origin population.
Proof.
  intros Hrun Hin. apply In_nth_error in Hin as [i Hnth].
  destruct (simualte_evolution_lockstep _ _ _ _ _ Hrun) as [_ Hinv].
  destruct (Hinv _ _ Hnth) as [_ Hlock].
  intros a b Ha Hb. destruct num_cases as [|n].
  - unfold lockstep in Hlock. rewrite Forall_forall in Hlock.
    destruct (Hlock _ Ha) as [Hla _]. destruct (Hlock _ Hb) as [Hlb _].
    destruct a, b; try discriminate. reflexivity.
  - assert (Hn : 1 <= S n) by lia.
    rewrite (@lockstep_max_origin (S n) _ _ _ a Hn Hlock Ha).
    rewrite (@lockstep_max_origin (S n) _ _ _ b Hn Hlock Hb).
    reflexivity.
Qed.

Lemma child_of_replaced age cases parent child case_id c :
  child_of age cases parent child ->
  In case_id cases -> nth_error child case_id = Some c ->
  fst c = age.
Proof.
  intros Hch Hin Hc. pose proof (child_of_length Hch) as Hlen.
  apply Forall2_seq_nth in Hch as [_ Hnth].
  assert (Hlt : case_id < length parent).
  { rewrite <- Hlen. apply nth_error_Some. congruence. }
  destruct (Hnth _ Hlt) as (c' & Hc' & Hcase).
  assert (c' = c) by congruence. subst c'.
  unfold case_of in Hcase. cbn [Nat.add] in Hcase.
  apply is_in_In in Hin. rewrite Hin in Hcase. apply Hcase.
Qed.

(** C6 (amended). Every population of a simulator history has all its
    Individuals sharing the same maximum origin tag; and for a population
    produced by [select_and_vary] from a parent population whose Individuals
    share the same maximum origin tag, the age that tags the replaced cases
    is one plus the maximum origin tag of the parent population. *)
Theorem shared_generation_age :
  (forall num_generations pop_size num_cases rate g h g' population,
     simualte_evolution num_generations pop_size num_cases rate g
       = Ok (h, g') ->
     In population h -> shares_max_origin population) /\
  (forall population cases_to_replace g new_population g',
     shares_max_origin population ->
     select_and_vary population cases_to_replace g
       = Ok (new_population, g') ->
     exists oldest,
       max_origin_of_population population = Ok oldest /\
       get_new_generation_age population = Ok (oldest + 1)%Z /\
       forall child case_id c,
         In child new_population -> In case_id cases_to_replace ->
         nth_error child case_id = Some c ->
         fst c = (oldest + 1)%Z).
Proof.
  split.
  - intros. eapply history_shares_max_origin; eauto.
  - intros population cases g new_population g' Hshared Hrun.
    apply select_and_vary_post in Hrun
      as (_ & age & parents & Hage & _ & _ & Hch).
    destruct population as [|first rest]; [discriminate|].
    pose proof Hage as Hage'. rewrite get_new_generation_age_max in Hage'.
    destruct (max_origin first) as [oldest|] eqn:Hfirst; [|discriminate].
    inversion Hage'; subst age. exists oldest. repeat split.
    + apply max_origin_of_population_shared; [discriminate|].
      rewrite Forall_forall. intros individual Hin.
      rewrite <- Hfirst. apply Hshared; [exact Hin | now left].
    + exact Hage.
    + intros child case_id c Hchild Hcase Hc.
      apply In_nth_error in Hchild as [j Hj].
      clear Hage Hage'. revert j Hj.
      induction Hch as [|p ch ps chs Hpc Hrest IH]; intros j Hj.
      * destruct j; discriminate.
      * destruct j as [|j]; [|now apply (IH j)].
        cbn in Hj. inversion Hj; subst ch.
        eapply child_of_replaced; eauto.
Qed.

Lemma shared_generation_age_witness :
  exists h g' new_population g'',
    simualte_evolution 2 7 3 (1 # 2) demo_rng = Ok (h, g') /\
    Forall shares_max_origin h /\
    shares_max_origin demo_population /\
    select_and_vary demo_population [1; 2] demo_rng
      = Ok (new_population, g'') /\
    max_origin_of_population demo_population = Ok 0%Z /\
    get_new_generation_age demo_population = Ok 1%Z.
Proof.
  destruct shared_generation_age as [Hhist Hvary].
  destruct (simualte_evolution 2 7 3 (1 # 2) demo_rng)
    as [[h g']|] eqn:Hrun; [|vm_compute in Hrun; discriminate].
  destruct (select_and_vary demo_population [1; 2] demo_rng)
    as [[new_population g'']|] eqn:Hsel; [|vm_compute in Hsel; discriminate].
  assert (Hdemo : shares_max_origin demo_population).
  { intros a b Ha Hb.
    assert (Hall : Forall (fun i => max_origin i = Ok 0%Z) demo_population)
      by (repeat constructor).
    rewrite Forall_forall in Hall.
    now rewrite (Hall a Ha), (Hall b Hb). }
  exists h, g', new_population, g''.
  split; [reflexivity|]. split.
  { rewrite Forall_forall. intros population Hin.
    eapply Hhist; [exact Hrun | exact Hin]. }
  split; [exact Hdemo|]. split; [reflexivity|].
  destruct (Hvary _ _ _ _ _ Hdemo Hsel) as (oldest & Hmax & Hage & _).
  assert (Hold : oldest = 0%Z)
    by (vm_compute in Hmax; now inversion Hmax).
  subst oldest. now split.
Defined.

(** C6, as stated, fails on a parent population whose Individuals do not
    share their maximum origin tag: the age is read from the first
    Individual only. *)
Lemma new_generation_age_counterexample :
  exists new_population g',
    select_and_vary skewed_population [0] demo_rng = Ok (new_population, g') /\
    max_origin_of_population skewed_population = Ok 5%Z /\
    get_new_generation_age skewed_population = Ok 1%Z /\
    Forall (fun child => map fst child = [1%Z]) new_population /\
    (1 <> 5 + 1)%Z.
Proof.
  eexists _, _. split; [vm_compute; reflexivity|].
  split; [reflexivity|]. split; [reflexivity|].
  split; [repeat constructor | discriminate].
Qed.

(** ** The ancestry analysis *)

Lemma mapM_result_map {A B : Type} (f : A -> result B) (g : A -> B)
    (l : list A) :
  (forall x, In x l -> f x = Ok (g x)) -> mapM f l = Ok (map g l).
Proof.
  induction l as [|x l IH]; intros Hf; [reflexivity|].
  cbn [mapM map bind Monad_result]. rewrite Hf by now left.
  rewrite IH by (intros; apply Hf; now right). reflexivity.
Qed.

Lemma mapM_result_seq {A B : Type} (f : nat -> result B) (g : A -> B)
    (l : list A) :
  forall s,
  (forall i x, nth_error l i = Some x -> f (s + i) = Ok (g x)) ->
  mapM f (seq s (length l)) = Ok (map g l).
Proof.
  induction l as [|x l IH]; intros s Hf; [reflexivity|].
  cbn [length seq mapM map bind Monad_result].
  rewrite <- (Nat.add_0_r s) at 1. rewrite (Hf 0 x eq_refl).
  rewrite (IH (S s)); [reflexivity|].
  intros i y Hy. rewrite Nat.add_succ_comm. now apply Hf.
Qed.

Lemma py_truediv_Ok (a b : Q) :
  ~ (b == 0)%Q -> py_truediv a b = Ok (a / b)%Q.
Proof.
  intros Hb. unfold py_truediv.
  destruct (Qeq_bool b 0) eqn:Heq; [|reflexivity].
  apply Qeq_bool_iff in Heq. contradiction.
Qed.

Lemma inject_Z_len_nonzero {A : Type} (l : list A) :
  l <> [] -> ~ (inject_Z (len l) == 0)%Q.
Proof.
  intros Hl Heq. unfold Qeq, len in Heq. cbn [Qnum Qden inject_Z] in Heq.
  destruct l; [contradiction | cbn [length] in Heq; lia].
Qed.

(** The fractions that
    [percent_cases_from_ancestors_at_specified_generation] returns, and the
    heap it leaves behind. *)
Lemma percent_cases_from_ancestors_run (results : SimulationHistory)
    (target_generation : Z) (r : loc) (heap : heap)
    (population : Population) (first : Individual) :
  py_getitem results target_generation = Ok population ->
  head population = Some first -> first <> [] ->
  percent_cases_from_ancestors_at_specified_generation
    results target_generation r heap =
  (set_cell r (py_sorted Z.leb (cell heap r)) heap,
   Ok (map (fun individual =>
              map (fun ancestor =>
                     (ancestor,
                      (inject_Z (len (cases_from_ancestor individual ancestor))
                       / inject_Z (len first))%Q))
                  (py_sorted Z.leb (cell heap r)))
           population)).
Proof.
  intros Hpop Hhead Hfirst.
  unfold percent_cases_from_ancestors_at_specified_generation.
  cbn [bind Monad_Ana list_sort read_list lift_ana set_cell cell].
  rewrite Nat.eqb_refl. unfold lift_ana. f_equal.
  set (ancestors := py_sorted Z.leb (cell heap r)).
  cbn [bind Monad_result]. rewrite Hpop, py_getitem_0.
  destruct population as [|first' rest]; [discriminate|].
  cbn in Hhead. inversion Hhead; subst first'. cbn zeta.
  rewrite (mapM_result_map _
    (fun ias => map (fun p => (fst p,
                               (inject_Z (len (snd p))
                                / inject_Z (len first))%Q))
                  (combine ancestors ias))).
  - f_equal. rewrite map_map. apply map_ext. intros individual.
    unfold cases_from_ancestors. generalize ancestors. intros l.
    induction l as [|a l IH]; [reflexivity|]. cbn. now rewrite IH.
  - intros ias Hias. apply in_map_iff in Hias as (individual & <- & _).
    unfold cases_from_ancestors. rewrite length_map.
    rewrite (mapM_result_seq _
      (fun a => (a, (inject_Z (len (cases_from_ancestor individual a))
                     / inject_Z (len first))%Q)) ancestors 0).
    + f_equal. generalize ancestors. intros l.
      induction l as [|a l IH]; [reflexivity|]. cbn. now rewrite IH.
    + intros i a Ha. cbn [Nat.add].
      rewrite !py_getitem_nat, Ha, nth_error_map, Ha.
      cbn [option_map bind Monad_result].
      rewrite py_truediv_Ok by now apply inject_Z_len_nonzero.
      reflexivity.
Qed.

(** C10. [percent_cases_from_ancestors_at_specified_generation] sorts the
    list object it is given in place: whatever the call returns or raises,
    afterwards that object holds its former elements in ascending order, and
    no other list object has changed. The same holds for the list object
    that [percent_cases_above_ancestor] creates and passes on. *)
Theorem interested_ancestors_sorted_in_place :
  (forall results target_generation r heap,
     let heap' :=
       fst (percent_cases_from_ancestors_at_specified_generation
              results target_generation r heap) in
     cell heap' r = py_sorted Z.leb (cell heap r) /\
     Sorted Z.le (cell heap' r) /\
     Permutation (cell heap r) (cell heap' r) /\
     forall r', r' <> r -> cell heap' r' = cell heap r') /\
  (forall results target_generation targeted_ancestors heap,
     let heap' :=
       fst (percent_cases_above_ancestor
              results target_generation targeted_ancestors heap) in
     Sorted Z.le (cell heap' (fresh heap)) /\
     Permutation (py_range targeted_ancestors (target_generation + 1))
       (cell heap' (fresh heap)) /\
     forall r', r' <> fresh heap -> cell heap' r' = cell heap r').
Proof.
  assert (Hsorted : forall l, Sorted Z.le (py_sorted Z.leb l)).
  { intros l.
    assert (Hs : Sorted (fun x y => Z.leb x y = true) (py_sorted Z.leb l)).
    { apply py_sorted_Sorted. intros x y. rewrite !Z.leb_le. lia. }
    induction Hs as [|x s Hs IH Hx]; constructor; [exact IH|].
    destruct Hx; constructor. now apply Z.leb_le. }
  assert (Hfst : forall results target_generation r heap,
             fst (percent_cases_from_ancestors_at_specified_generation
                    results target_generation r heap)
             = set_cell r (py_sorted Z.leb (cell heap r)) heap).
  { intros. reflexivity. }
  split.
  - intros results target_generation r heap heap'. subst heap'.
    rewrite Hfst. cbn [set_cell cell]. rewrite Nat.eqb_refl.
    repeat split; [apply Hsorted | apply py_sorted_perm|].
    intros r' Hr'. now destruct (Nat.eqb_spec r' r).
  - intros results target_generation targeted_ancestors heap heap'.
    assert (Hheap : heap' =
              set_cell (fresh heap)
                (py_sorted Z.leb
                   (py_range targeted_ancestors (target_generation + 1)))
                (set_cell (fresh heap)
                   (py_range targeted_ancestors (target_generation + 1))
                   (mkHeap (cell heap) (S (fresh heap))))).
    { subst heap'. unfold percent_cases_above_ancestor.
      cbn [bind Monad_Ana new_list].
      destruct (percent_cases_from_ancestors_at_specified_generation
                  results target_generation (fresh heap) _)
        as [h2 [percents|e]] eqn:Hrun;
        apply (f_equal fst) in Hrun; rewrite Hfst in Hrun;
        cbn [fst lift_ana] in *; rewrite <- Hrun;
        cbn [set_cell cell fresh]; now rewrite Nat.eqb_refl. }
    rewrite Hheap. cbn [set_cell cell fresh]. rewrite Nat.eqb_refl.
    repeat split; [apply Hsorted | apply py_sorted_perm|].
    intros r' Hr'. now destruct (Nat.eqb_spec r' (fresh heap)).
Qed.

Lemma interested_ancestors_sorted_in_place_witness :
  cell (fst (percent_cases_from_ancestors_at_specified_generation
               [demo_population] 0 0 demo_heap)) 0 = [1; 2; 3]%Z /\
  Sorted Z.le
    (cell (fst (percent_cases_above_ancestor [demo_population] 0 0 demo_heap))
       (fresh demo_heap)).
Proof.
  destruct interested_ancestors_sorted_in_place as [Hcall Habove].
  split.
  - destruct (Hcall [demo_population] 0%Z 0 demo_heap) as [Hcell _].
    rewrite Hcell. reflexivity.
  - apply (Habove [demo_population] 0%Z 0%Z demo_heap).
Defined.

Lemma py_range_single (a : Z) : py_range a (a + 1) = [a].
Proof.
  unfold py_range. replace (a + 1 - a)%Z with 1%Z by lia.
  change (Z.to_nat 1) with 1. cbn [seq map Z.of_nat]. now rewrite Z.add_0_r.
Qed.

Lemma fill_single_bucket {A : Type} (a : Z) (f : A -> Q) (l : list A) :
  forall bucket : list Q,
  foldM (fun buckets individual =>
           foldM (fun buckets ancestor_id =>
                    bucket <- py_getitem buckets (Z.of_nat ancestor_id) ;;
                    entry <- py_getitem individual (Z.of_nat ancestor_id) ;;
                    ret (set_at ancestor_id (bucket ++ [snd entry]) buckets))
                 (seq 0 (length individual)) buckets)
        (map (fun x => [(a, f x)]) l) [bucket]
  = Ok [bucket ++ map f l].
Proof.
  induction l as [|x l IH]; intros bucket.
  - cbn. now rewrite app_nil_r.
  - cbn [map foldM bind Monad_result length seq].
    change (py_getitem [bucket] (Z.of_nat 0)) with (Ok bucket).
    change (py_getitem [(a, f x)] (Z.of_nat 0)) with (Ok (a, f x)).
    cbn [ret Monad_result set_at snd]. rewrite IH, <- app_assoc.
    reflexivity.
Qed.

Lemma bind_result_Ok {A B : Type} (a : A) (k : A -> result B) :
  (x <- Ok a ;; k x) = k a.
Proof. reflexivity. Qed.

Lemma py_getitem_0_map {A B : Type} (f : A -> B) (l : list A) (x : A) :
  head l = Some x -> py_getitem (map f l) 0 = Ok (f x).
Proof.
  intros Hx. rewrite py_getitem_0. destruct l; [discriminate|].
  cbn in *. now inversion Hx.
Qed.

(** With target generation and targeted ancestor equal,
    [percent_cases_above_ancestor] is one minus the average, over the
    Individuals of the target population, of the fraction of cases that
    carry the target generation as origin tag. *)
Lemma percent_cases_above_same_generation (results : SimulationHistory)
    (target_generation : Z) (heap : heap)
    (population : Population) (first : Individual) :
  py_getitem results target_generation = Ok population ->
  head population = Some first -> first <> [] ->
  snd (percent_cases_above_ancestor
         results target_generation target_generation heap) =
  Ok (1 - py_fsum
            [py_fsum
               (map (fun individual =>
                       inject_Z (len (cases_from_ancestor individual
                                        target_generation))
                       / inject_Z (len first))
                    population)
             / inject_Z (len population)])%Q.
Proof.
  intros Hpop Hhead Hfirst. unfold percent_cases_above_ancestor.
  cbn [bind Monad_Ana new_list].
  rewrite (@percent_cases_from_ancestors_run results target_generation _ _
             population first Hpop Hhead Hfirst).
  cbn [set_cell cell fresh]. rewrite Nat.eqb_refl, py_range_single.
  change (py_sorted Z.leb [target_generation]) with [target_generation].
  unfold lift_ana. cbn [snd].
  rewrite (py_getitem_0_map _ _ Hhead), bind_result_Ok.
  cbn [map length repeat].
  pose proof (fill_single_bucket target_generation
                (fun individual : Individual =>
                   (inject_Z (len (cases_from_ancestor individual
                                     target_generation))
                    / inject_Z (len first))%Q) population []) as Hfill.
  cbv beta in Hfill. rewrite Hfill, bind_result_Ok. cbn [app mapM].
  rewrite py_truediv_Ok.
  - unfold len. rewrite length_map. reflexivity.
  - apply inject_Z_len_nonzero. destruct population; discriminate.
Qed.

Lemma py_fsum_constant {A : Type} (l : list A) (q : Q) :
  forall acc : Q,
  (fold_left Qplus (map (fun _ => q) l) acc == acc + inject_Z (len l) * q)%Q.
Proof.
  induction l as [|x l IH]; intros acc.
  - cbn. ring.
  - cbn [map fold_left]. rewrite IH. unfold len. cbn [length].
    rewrite Nat2Z.inj_succ, <- Z.add_1_r, inject_Z_plus. ring.
Qed.

Lemma percent_cases_above_same_generation_value
    (results : SimulationHistory) (target_generation : Z) (heap : heap)
    (population : Population) (num_cases count : nat) :
  py_getitem results target_generation = Ok population ->
  population <> [] -> 1 <= num_cases ->
  Forall (fun individual =>
            length individual = num_cases /\
            length (cases_from_ancestor individual target_generation) = count)
         population ->
  exists q,
    snd (percent_cases_above_ancestor
           results target_generation target_generation heap) = Ok q /\
    (q == 1 - inject_Z (Z.of_nat count) / inject_Z (Z.of_nat num_cases))%Q.
Proof.
  intros Hpop Hne Hn Hall.
  assert (Hhead : exists first, head population = Some first)
    by (destruct population as [|first rest];
        [contradiction | now exists first]).
  destruct Hhead as [first Hhead].
  assert (Hfirst : length first = num_cases).
  { destruct population as [|first' rest]; [discriminate|].
    cbn in Hhead. inversion Hhead; subst first'.
    inversion Hall as [|? ? [Hl _] _]. exact Hl. }
  eexists. split.
  - eapply percent_cases_above_same_generation with (first := first);
      [exact Hpop | exact Hhead|].
    destruct first; [cbn in Hfirst; lia | discriminate].
  - rewrite Forall_forall in Hall.
    rewrite (map_ext_in _
      (fun _ => (inject_Z (Z.of_nat count)
                 / inject_Z (Z.of_nat num_cases))%Q)).
    2:{ intros individual Hin. destruct (Hall _ Hin) as [_ Hc].
        unfold len. now rewrite Hc, Hfirst. }
    unfold py_fsum. cbn [fold_left]. rewrite py_fsum_constant.
    assert (Hp : ~ (inject_Z (len population) == 0)%Q)
      by now apply inject_Z_len_nonzero.
    assert (Hnz : ~ (inject_Z (Z.of_nat num_cases) == 0)%Q).
    { unfold Qeq. cbn [Qnum Qden inject_Z]. lia. }
    field. split; assumption.
Qed.

Lemma lockstep_newest_count num_cases k g population :
  1 <= g ->
  lockstep num_cases k g population ->
  Forall (fun individual =>
            length individual = num_cases /\
            length (cases_from_ancestor individual (Z.of_nat g)) = k)
         population.
Proof.
  intros Hg Hlock. unfold lockstep in Hlock.
  eapply Forall_impl; [|exact Hlock]. cbn beta.
  intros individual (Hlen & Htags & Hcount). split; [exact Hlen|].
  unfold stamp in *. destruct (Nat.eqb_spec k 0) as [->|Hk].
  - rewrite cases_from_ancestor_none; [reflexivity|].
    eapply Forall_impl; [|exact Htags]. cbn beta. intros c Hc. lia.
  - destruct (Z.eqb_spec (Z.of_nat g) 0); [lia | exact Hcount].
Qed.

(** C2. What the code computes: in every run of the simulator with
    [pop_size >= 7], [num_cases >= 1] and a rate in [[0,1]], and for every
    generation [gi] from 1 on,
    [percent_cases_above_ancestor(history, gi, gi)] is exactly
    [1 - floor(rate * num_cases) / num_cases], whatever the random source
    draws. *)
Theorem percent_cases_above_same_generation_complement
    (num_generations pop_size num_cases : nat) (rate : Q) (g : rng)
    (gi : nat) (heap : heap) :
  7 <= pop_size -> 1 <= num_cases -> (0 <= rate <= 1)%Q ->
  1 <= gi <= num_generations ->
  exists h g' q,
    simualte_evolution num_generations pop_size num_cases rate g
      = Ok (h, g') /\
    snd (percent_cases_above_ancestor h (Z.of_nat gi) (Z.of_nat gi) heap)
      = Ok q /\
    (q == 1 - inject_Z (Qfloor (rate * inject_Z (Z.of_nat num_cases)))
              / inject_Z (Z.of_nat num_cases))%Q.
Proof.
  intros Hsize Hcases Hrate Hgi.
  destruct (simualte_evolution_returns num_generations Hsize Hcases Hrate g)
    as (h & g' & Hrun & _).
  destruct (simualte_evolution_lockstep _ _ _ _ _ Hrun) as [Hlen Hinv].
  destruct (nth_error h gi) as [population|] eqn:Hnth;
    [|apply nth_error_None in Hnth; lia].
  destruct (Hinv _ _ Hnth) as [[Hps _] Hlock].
  destruct (downsample_count_bounds num_cases Hrate) as [Hk Hfloor].
  destruct (@percent_cases_above_same_generation_value
              h (Z.of_nat gi) heap population num_cases
              (replaced_per_generation rate num_cases))
    as (q & Hq & Hval).
  - now rewrite py_getitem_nat, Hnth.
  - destruct population; [cbn in Hps; lia | discriminate].
  - exact Hcases.
  - apply lockstep_newest_count; [lia | exact Hlock].
  - exists h, g', q. repeat split; auto.
    rewrite Hval. unfold replaced_per_generation.
    rewrite Z2Nat.id, Hfloor by lia. reflexivity.
Qed.

Lemma percent_cases_above_same_generation_complement_witness :
  7 <= 100 /\ 1 <= 100 /\ (0 <= 1 # 10 <= 1)%Q /\ 1 <= 100 <= 100 /\
  exists h g' q,
    simualte_evolution 100 100 100 (1 # 10) demo_rng = Ok (h, g') /\
    snd (percent_cases_above_ancestor h 100 100 demo_heap) = Ok q /\
    (q == 9 # 10)%Q /\
    ~ (Qabs (q - (1 # 10)) <= 3 # 100)%Q.
Proof.
  assert (Hrate : (0 <= 1 # 10 <= 1)%Q) by (split; discriminate).
  split; [lia|]. split; [lia|]. split; [exact Hrate|]. split; [lia|].
  destruct (@percent_cases_above_same_generation_complement
              100 100 100 (1 # 10) demo_rng 100 demo_heap)
    as (h & g' & q & Hrun & Hq & Hval); try lia; [exact Hrate|].
  assert (Hnine : (q == 9 # 10)%Q).
  { eapply Qeq_trans; [exact Hval|]. vm_compute. reflexivity. }
  exists h, g', q.
  split; [exact Hrun|]. split; [exact Hq|]. split; [exact Hnine|].
  intros Hclose. rewrite Hnine in Hclose. vm_compute in Hclose.
  apply Hclose. reflexivity.
Defined.

(** ** The threshold estimator *)

(** C9 (amended). [phylogeny_threshold_estimation] fails when [n] is
    negative and returns [1 - (1 - d)^n] when [n >= 0]; at the boundary
    [n = 0] it does not fail: it returns 0 for every [d]. *)
Theorem phylogeny_threshold_estimation_domain (d : Q) (n : Z) :
  ((n < 0)%Z -> phylogeny_threshold_estimation d n = Raise AssertionError) /\
  ((0 <= n)%Z ->
   phylogeny_threshold_estimation d n = Ok (1 - (1 - d) ^ n)%Q) /\
  phylogeny_threshold_estimation d 0 = Ok 0%Q.
Proof.
  unfold phylogeny_threshold_estimation. repeat split.
  - intros Hn. destruct (Z.geb_spec n 0); [lia | reflexivity].
  - intros Hn. destruct (Z.geb_spec n 0); [reflexivity | lia].
Qed.

Lemma phylogeny_threshold_estimation_domain_witness :
  (-1 < 0)%Z /\ (0 <= 2)%Z /\
  phylogeny_threshold_estimation (1 # 10) (-1) = Raise AssertionError /\
  phylogeny_threshold_estimation (1 # 10) 2
    = Ok (1 - (1 - (1 # 10)) ^ 2)%Q /\
  phylogeny_threshold_estimation (1 # 10) 0 = Ok 0%Q.
Proof.
  split; [lia|]. split; [lia|].
  destruct (phylogeny_threshold_estimation_domain (1 # 10)%Q (-1))
    as (Hneg & _ & Hzero).
  destruct (phylogeny_threshold_estimation_domain (1 # 10)%Q 2)
    as (_ & Hpos & _).
  split; [apply Hneg; lia|]. split; [apply Hpos; lia | exact Hzero].
Defined.

(** C9, as stated, fails at the boundary: the call with [n = 0] returns. *)
Lemma phylogeny_threshold_estimation_zero_counterexample :
  ~ (forall d, exists e,
       phylogeny_threshold_estimation d 0 = Raise e).
Proof.
  intros Hfails. destruct (Hfails (1 # 10)%Q) as [e He]. discriminate.
Qed.

(** * Further properties of the simulator *)

(** ** Invariants of a history *)

Lemma steps_invariant (I : Population -> Prop) (rate : Q) :
  (forall p g p1 g1,
     I p -> simulate_one_generation p rate g = Ok (p1, g1) -> I p1) ->
  forall trace g p,
  I p -> steps rate g p trace -> Forall I (p :: map fst trace).
Proof.
  intros Hstep. induction trace as [|[p1 g1] trace IH]; intros g p Hp Hsteps.
  - now repeat constructor.
  - destruct Hsteps as [Hrun Hsteps]. constructor; [exact Hp|].
    cbn [map fst]. eapply IH; [|exact Hsteps]. eapply Hstep; eauto.
Qed.

Lemma child_of_cases (age : Z) (cases : list nat) (parent : Individual) :
  forall idxs child,
  Forall2 (case_of age cases parent) idxs child ->
  Forall (fun c => (0 <= snd c <= 9999)%Z \/ In c parent) child.
Proof.
  induction 1 as [|i c idxs child Hc Hrest IH]; constructor; [|exact IH].
  unfold case_of in Hc. destruct (is_in i cases).
  - left. apply Hc.
  - right. eapply nth_error_In, Hc.
Qed.

Lemma errors_in_range_step (population : Population) rate g p1 g1 :
  errors_in_range population ->
  simulate_one_generation population rate g = Ok (p1, g1) ->
  errors_in_range p1.
Proof.
  intros Hinv Hrun. apply simulate_one_generation_post in Hrun
    as (first & cases & age & parents & _ & _ & _ & _ & _ & _ & _ & Hin & Hch).
  unfold errors_in_range in *. rewrite Forall_forall in Hinv, Hin.
  induction Hch as [|p c ps cs Hc Hch IH]; constructor.
  - apply child_of_cases in Hc. eapply Forall_impl; [|exact Hc].
    cbn beta. intros x [Hx|Hx]; [exact Hx|].
    assert (Hp : In p population) by (apply Hin; now left).
    specialize (Hinv _ Hp). rewrite Forall_forall in Hinv. now apply Hinv.
  - apply IH. intros x Hx. apply Hin. now right.
Qed.

(** X1. Whatever the parameters, every population of a history that
    [simualte_evolution] returns has [pop_size] Individuals of [num_cases]
    cases each, and every error value in it is in [[0,9999]]. *)
Theorem history_sizes_and_errors
    (num_generations pop_size num_cases : nat) (rate : Q) (g : rng)
    (h : SimulationHistory) (g' : rng) :
  simualte_evolution num_generations pop_size num_cases rate g = Ok (h, g') ->
  forall population, In population h ->
    length population = pop_size /\
    forall individual, In individual population ->
      length individual = num_cases /\
      forall c, In c individual -> (0 <= snd c <= 9999)%Z.
Proof.
  intros Hrun population Hin.
  destruct (simualte_evolution_lockstep _ _ _ _ _ Hrun) as [_ Hinv].
  apply simualte_evolution_unfold in Hrun
    as (initial & g0 & trace & _ & Hwf & Hfresh & _ & Hsteps & -> & _).
  assert (Herr : Forall errors_in_range (initial :: map fst trace)).
  { eapply steps_invariant; [|
      |exact Hsteps].
    - intros p gs p1 g1. apply errors_in_range_step.
    - unfold errors_in_range, freshly_generated in *.
      eapply Forall_impl; [|exact Hfresh]. cbn beta. intros individual Hi.
      eapply Forall_impl; [|exact Hi]. now intros c [_ Hc]. }
  rewrite Forall_forall in Herr. specialize (Herr _ Hin).
  apply In_nth_error in Hin as [i Hnth].
  destruct (Hinv _ _ Hnth) as [[Hsize Hlen] _].
  split; [exact Hsize|]. intros individual Hind.
  rewrite Forall_forall in Hlen. split; [now apply Hlen|].
  unfold errors_in_range in Herr. rewrite Forall_forall in Herr.
  specialize (Herr _ Hind). rewrite Forall_forall in Herr. exact Herr.
Qed.

Lemma history_sizes_and_errors_witness :
  exists h g',
    simualte_evolution 2 7 3 (1 # 2) demo_rng = Ok (h, g') /\
    forall population, In population h ->
      length population = 7 /\
      forall individual, In individual population ->
        length individual = 3 /\
        forall c, In c individual -> (0 <= snd c <= 9999)%Z.
Proof.
  destruct (simualte_evolution 2 7 3 (1 # 2) demo_rng)
    as [[h g']|] eqn:Hrun; [|vm_compute in Hrun; discriminate].
  exists h, g'. split; [reflexivity|].
  exact (@history_sizes_and_errors 2 7 3 (1 # 2)%Q demo_rng h g' Hrun).
Defined.

Lemma Forall2_seq_map {A B : Type} (R : nat -> A -> Prop) (f : A -> B)
    (g : nat -> B) :
  (forall i x, R i x -> f x = g i) ->
  forall idxs l, Forall2 R idxs l -> map f l = map g idxs.
Proof.
  intros HR. induction 1 as [|i x idxs l Hx Hl IH]; [reflexivity|].
  cbn. now rewrite (HR _ _ Hx), IH.
Qed.

Lemma child_of_origins (age : Z) (cases : list nat)
    (parent child : Individual) :
  child_of age cases parent child ->
  map fst child = child_origins age cases (map fst parent).
Proof.
  intros Hch. unfold child_origins. rewrite length_map.
  eapply Forall2_seq_map; [|exact Hch].
  intros i c Hc. unfold case_of in Hc. destruct (is_in i cases).
  - apply Hc.
  - symmetry. apply nth_error_nth. apply map_nth_error. exact Hc.
Qed.

Lemma same_origins_step (population : Population) rate g p1 g1 :
  same_origins population ->
  simulate_one_generation population rate g = Ok (p1, g1) ->
  same_origins p1.
Proof.
  intros Hinv Hrun. apply simulate_one_generation_post in Hrun
    as (first & cases & age & parents & Hhead & _ & _ & _ & _ & _ & _
          & Hin & Hch).
  assert (Hfirst : In first population)
    by (destruct population; [discriminate | left; now inversion Hhead]).
  assert (Hall : Forall (fun child =>
                   map fst child = child_origins age cases (map fst first))
                   p1).
  { rewrite Forall_forall in Hin.
    induction Hch as [|p c ps cs Hc Hch IH]; constructor.
    - rewrite (child_of_origins Hc).
      now rewrite (Hinv p first (Hin _ (or_introl eq_refl)) Hfirst).
    - apply IH. intros x Hx. apply Hin. now right. }
  rewrite Forall_forall in Hall. intros a b Ha Hb.
  now rewrite (Hall _ Ha), (Hall _ Hb).
Qed.

Lemma cases_from_ancestor_origins (a b : Individual) (ancestor : Z) :
  map fst a = map fst b ->
  length (cases_from_ancestor a ancestor)
  = length (cases_from_ancestor b ancestor).
Proof.
  unfold cases_from_ancestor. revert b.
  induction a as [|x a IH]; intros [|y b] Heq; try discriminate;
    [reflexivity|].
  cbn in Heq. injection Heq as Hxy Hab. cbn [filter]. rewrite Hxy.
  destruct (fst y =? ancestor)%Z; cbn [length]; now rewrite (IH b Hab).
Qed.

Lemma simualte_evolution_same_origins
    num_generations pop_size num_cases rate g h g' :
  simualte_evolution num_generations pop_size num_cases rate g = Ok (h, g') ->
  Forall same_origins h.
Proof.
  intros Hrun.
  apply simualte_evolution_unfold in Hrun
    as (initial & g0 & trace & _ & Hwf & Hfresh & _ & Hsteps & -> & _).
  eapply steps_invariant; [|
    |exact Hsteps].
  - intros p gs p1 g1. apply same_origins_step.
  - destruct Hwf as [_ Hlen]. unfold freshly_generated in Hfresh.
    rewrite Forall_forall in Hlen, Hfresh.
    assert (Hzero : forall x, In x initial ->
              map fst x = repeat 0%Z num_cases).
    { intros x Hx. rewrite <- (Hlen _ Hx). specialize (Hfresh _ Hx).
      clear Hx. induction Hfresh as [|c l [Hc _] _ IH]; [reflexivity|].
      cbn. now rewrite Hc, IH. }
    intros x y Hx Hy. now rewrite (Hzero _ Hx), (Hzero _ Hy).
Qed.

(** X2. In every population of a history that [simualte_evolution] returns,
    all Individuals carry the same origin tag at every case index: the
    Individuals differ in their error values only. In particular every
    ancestor generation contributes the same number of cases to each of
    them. *)
Theorem history_same_origins
    (num_generations pop_size num_cases : nat) (rate : Q) (g : rng)
    (h : SimulationHistory) (g' : rng) :
  simualte_evolution num_generations pop_size num_cases rate g = Ok (h, g') ->
  forall population a b,
    In population h -> In a population -> In b population ->
    map fst a = map fst b /\
    forall ancestor,
      length (cases_from_ancestor a ancestor)
      = length (cases_from_ancestor b ancestor).
Proof.
  intros Hrun population a b Hin Ha Hb.
  pose proof (simualte_evolution_same_origins _ _ _ _ _ Hrun) as Hall.
  rewrite Forall_forall in Hall.
  pose proof (Hall _ Hin a b Ha Hb) as Hab.
  split; [exact Hab|]. intros ancestor.
  now apply cases_from_ancestor_origins.
Qed.

Lemma history_same_origins_witness :
  exists h g',
    simualte_evolution 2 7 3 (1 # 2) demo_rng = Ok (h, g') /\
    forall population a b,
      In population h -> In a population -> In b population ->
      map fst a = map fst b /\
      forall ancestor,
        length (cases_from_ancestor a ancestor)
        = length (cases_from_ancestor b ancestor).
Proof.
  destruct (simualte_evolution 2 7 3 (1 # 2) demo_rng)
    as [[h g']|] eqn:Hrun; [|vm_compute in Hrun; discriminate].
  exists h, g'. split; [reflexivity|].
  exact (@history_same_origins 2 7 3 (1 # 2)%Q demo_rng h g' Hrun).
Defined.

(** ** When the simulator raises *)










Lemma py_int_zero (q : Q) : (q == 0)%Q -> py_int q = 0%Z.
Proof.
  unfold Qeq, py_int. cbn. rewrite Z.mul_1_r. intros ->. reflexivity.
Qed.






(** X6. [select_and_vary] raises [IndexError] on an empty population,
    [ValueError] on a population of one to six Individuals (the tournament)
    and [ValueError] when the first Individual has no case (the maximum of
    an empty list); in every other case it returns a population of the same
    size, whatever [cases_to_replace] holds. *)
Theorem select_and_vary_failures (population : Population)
    (cases_to_replace : list nat) (g : rng) :
  (population = [] ->
   select_and_vary population cases_to_replace g = Raise IndexError) /\
  (0 < length population < 7 ->
   select_and_vary population cases_to_replace g = Raise ValueError) /\
  (7 <= length population -> head population = Some [] ->
   select_and_vary population cases_to_replace g = Raise ValueError) /\
  (7 <= length population ->
   forall first, head population = Some first -> first <> [] ->
   exists new_population g',
     select_and_vary population cases_to_replace g
       = Ok (new_population, g') /\
     length new_population = length population).
Proof.
  repeat split.
  - intros ->. reflexivity.
  - intros Hsize. unfold select_and_vary. cbn [bind Monad_Sim].
    destruct (length population) as [|n] eqn:Hlen; [lia|].
    rewrite (@raises_repeatM _ (tournament_selection population) n
               ValueError); [reflexivity|].
    intros g0. apply tournament_selection_raises. lia.
  - intros Hsize Hhead. unfold select_and_vary. cbn [bind Monad_Sim].
    destruct (returns_repeatM (length population)
                (@tournament_selection_returns population Hsize) g)
      as (parents & g1 & Hrun & _).
    rewrite Hrun. destruct population as [|first rest]; [discriminate|].
    cbn in Hhead. inversion Hhead; subst first. reflexivity.
  - intros Hsize first Hhead Hfirst.
    destruct (@select_and_vary_returns population cases_to_replace first
                Hsize Hhead Hfirst g)
      as (new_population & g' & Hrun & _).
    exists new_population, g'. split; [exact Hrun|].
    apply select_and_vary_post in Hrun
      as (_ & age & parents & _ & Hlen & _ & Hch).
    apply Forall2_length in Hch. congruence.
Qed.

Lemma select_and_vary_failures_witness :
  select_and_vary [] [0] demo_rng = Raise IndexError /\
  select_and_vary (firstn 3 demo_population) [0] demo_rng
    = Raise ValueError /\
  select_and_vary (repeat [] 7) [0] demo_rng = Raise ValueError /\
  exists new_population g',
    select_and_vary demo_population [0; 9] demo_rng
      = Ok (new_population, g') /\
    length new_population = length demo_population.
Proof.
  destruct (select_and_vary_failures [] [0] demo_rng) as (H1 & _).
  destruct (select_and_vary_failures (firstn 3 demo_population) [0] demo_rng)
    as (_ & H2 & _).
  destruct (select_and_vary_failures (repeat [] 7) [0] demo_rng)
    as (_ & _ & H3 & _).
  destruct (select_and_vary_failures demo_population [0; 9] demo_rng)
    as (_ & _ & _ & H4).
  split; [apply H1; reflexivity|].
  split; [apply H2; cbn; lia|].
  split; [apply H3; [cbn; lia | reflexivity]|].
  apply (H4 ltac:(cbn; lia) (demo_individual 10) eq_refl).
  discriminate.
Defined.




(** ** More on tournament selection *)

Lemma remove_at_perm {A : Type} (pool : list A) :
  forall j x, nth_error pool j = Some x ->
  Permutation pool (x :: remove_at j pool).
Proof.
  induction pool as [|y pool IH]; intros [|j] x Hx; cbn in *;
    try discriminate.
  - inversion Hx. reflexivity.
  - etransitivity; [|apply perm_swap]. constructor. now apply IH.
Qed.

Lemma draw_without_replacement_perm {A : Type} (k : nat) :
  forall pool : list A,
  post (draw_without_replacement pool k)
    (fun xs => exists rest, Permutation pool (xs ++ rest)).
Proof.
  induction k as [|k IH]; intros pool; cbn [draw_without_replacement].
  - apply post_ret. now exists pool.
  - eapply post_bind with (P := fun _ => True); [now intros ? ? ? _|].
    intros j _.
    eapply post_bind.
    { apply post_lift. intros x Hx. exact Hx. }
    intros x Hx. cbn beta in Hx. rewrite py_getitem_nat in Hx.
    destruct (nth_error pool j) as [x'|] eqn:Hnth; [|discriminate].
    inversion Hx; subst x'.
    eapply post_bind; [apply IH|]. intros xs [rest Hperm].
    apply post_ret. exists rest. cbn [app].
    etransitivity; [apply remove_at_perm, Hnth|]. now constructor.
Qed.

Lemma filter_length_perm {A : Type} (f : A -> bool) (l l' : list A) :
  Permutation l l' -> length (filter f l) = length (filter f l').
Proof.
  induction 1 as [|x l l' _ IH|x y l|l l' l'' _ IH1 _ IH2]; cbn.
  - reflexivity.
  - destruct (f x); cbn; now rewrite IH.
  - destruct (f x), (f y); reflexivity.
  - now rewrite IH1.
Qed.

Lemma filter_all {A : Type} (f : A -> bool) (l : list A) :
  Forall (fun x => f x = true) l -> filter f l = l.
Proof.
  induction 1 as [|x l Hx _ IH]; cbn; [reflexivity|].
  now rewrite Hx, IH.
Qed.

(** X8. Selection pressure. The Individual that [tournament_selection]
    returns is never among the six weakest: at least seven Individuals of
    the population, the winner included, have a summed error no greater
    than the winner's. *)
Theorem tournament_selection_pressure (population : Population) (g : rng)
    (winner : Individual) (g' : rng) :
  tournament_selection population g = Ok (winner, g') ->
  7 <= length (filter (fun individual =>
                         (total_error individual <=? total_error winner)%Z)
                      population).
Proof.
  intros Hrun. unfold tournament_selection in Hrun.
  apply bind_Ok in Hrun as (candidates & g1 & Hsample & Hmax).
  pose proof (sample_post population TOURNAMENT_SIZE g Hsample)
    as (Hk & Hlen & _).
  change (Z.to_nat TOURNAMENT_SIZE) with 7 in Hlen.
  assert (Hperm : exists rest, Permutation population (candidates ++ rest)).
  { unfold sample in Hsample.
    destruct ((0 <=? TOURNAMENT_SIZE)%Z
              && (TOURNAMENT_SIZE <=? len population)%Z)%bool;
      [|discriminate].
    exact (draw_without_replacement_perm _ population g Hsample). }
  destruct Hperm as [rest Hperm].
  apply lift_Ok in Hmax as [Hmax _].
  destruct candidates as [|c cs]; [discriminate|].
  cbn in Hmax. inversion Hmax; subst winner.
  rewrite (filter_length_perm _ Hperm), filter_app, length_app.
  rewrite filter_all; [lia|].
  eapply Forall_impl; [|apply max_by_ge]. cbn beta.
  intros x Hx. cbn beta in Hx. apply Z.leb_le. exact Hx.
Qed.

Lemma tournament_selection_pressure_witness :
  exists winner g',
    tournament_selection demo_population demo_rng = Ok (winner, g') /\
    7 <= length (filter (fun individual =>
                           (total_error individual <=? total_error winner)%Z)
                        demo_population).
Proof.
  destruct (tournament_selection demo_population demo_rng)
    as [[winner g']|] eqn:Hrun; [|vm_compute in Hrun; discriminate].
  exists winner, g'. split; [reflexivity|].
  exact (@tournament_selection_pressure demo_population demo_rng
           winner g' Hrun).
Defined.

Lemma max_by_first {A : Type} (key : A -> Z) (l : list A) :
  forall best,
  exists earlier later,
    best :: l = earlier ++ max_by key best l :: later /\
    Forall (fun x => (key x < key (max_by key best l))%Z) earlier.
Proof.
  induction l as [|x l IH]; intros best; cbn [max_by].
  - exists [], []. split; [reflexivity | constructor].
  - destruct (Z.ltb_spec (key best) (key x)) as [Hlt|Hge].
    + destruct (IH x) as (earlier & later & Heq & Hall).
      exists (best :: earlier), later. split; [cbn; now rewrite Heq|].
      constructor; [|exact Hall].
      pose proof (max_by_ge key l x) as Hmax.
      inversion Hmax as [|? ? Hx _]; subst. lia.
    + destruct (IH best) as (earlier & later & Heq & Hall).
      destruct earlier as [|b earlier].
      * cbn [app] in Heq. injection Heq as Hbest Hl.
        exists [], (x :: l). split; [|constructor].
        cbn [app]. now rewrite <- Hbest.
      * cbn [app] in Heq. injection Heq as Hbest Hl. subst b.
        exists (best :: x :: earlier), later.
        split; [cbn [app]; now rewrite <- Hl|].
        inversion Hall as [|? ? Hb Hrest]; subst.
        constructor; [exact Hb|]. constructor; [lia | exact Hrest].
Qed.

(** X9. Ties in a tournament go to the candidate drawn first: every
    candidate sampled before the winner has a strictly smaller summed
    error. *)
Theorem tournament_selection_tie_break (population : Population) (g : rng)
    (winner : Individual) (g' : rng) :
  tournament_selection population g = Ok (winner, g') ->
  exists candidates g1 earlier later,
    sample population TOURNAMENT_SIZE g = Ok (candidates, g1) /\
    candidates = earlier ++ winner :: later /\
    Forall (fun c => (total_error c < total_error winner)%Z) earlier /\
    Forall (fun c => (total_error c <= total_error winner)%Z) later.
Proof.
  intros Hrun. unfold tournament_selection in Hrun.
  apply bind_Ok in Hrun as (candidates & g1 & Hsample & Hmax).
  apply lift_Ok in Hmax as [Hmax _].
  destruct candidates as [|c cs]; [discriminate|].
  cbn in Hmax. inversion Hmax; subst winner.
  destruct (max_by_first total_error cs c) as (earlier & later & Heq & Hall).
  exists (c :: cs), g1, earlier, later. repeat split; auto.
  pose proof (max_by_ge total_error cs c) as Hge.
  rewrite Heq in Hge at 1. apply Forall_app in Hge as [_ Hge].
  now inversion Hge.
Qed.

Lemma tournament_selection_tie_break_witness :
  exists winner g' candidates g1 earlier later,
    tournament_selection (repeat (demo_individual 1) 9) demo_rng
      = Ok (winner, g') /\
    sample (repeat (demo_individual 1) 9) TOURNAMENT_SIZE demo_rng
      = Ok (candidates, g1) /\
    candidates = earlier ++ winner :: later /\
    Forall (fun c => (total_error c < total_error winner)%Z) earlier /\
    Forall (fun c => (total_error c <= total_error winner)%Z) later.
Proof.
  destruct (tournament_selection (repeat (demo_individual 1) 9) demo_rng)
    as [[winner g']|] eqn:Hrun; [|vm_compute in Hrun; discriminate].
  destruct (@tournament_selection_tie_break _ demo_rng winner g' Hrun)
    as (candidates & g1 & earlier & later & H).
  exists winner, g', candidates, g1, earlier, later.
  split; [reflexivity | exact H].
Defined.

(** * Further properties of the statistical verifier *)

(** ** Grouping cases by ancestor *)

Lemma concat_map_app_perm {A B : Type} (f g : A -> list B) (l : list A) :
  Permutation (concat (map (fun a => f a ++ g a) l))
              (concat (map f l) ++ concat (map g l)).
Proof.
  induction l as [|a l IH]; cbn; [reflexivity|].
  rewrite <- !app_assoc. apply Permutation_app_head.
  etransitivity; [apply Permutation_app_head, IH|].
  rewrite !app_assoc. apply Permutation_app_tail, Permutation_app_comm.
Qed.

Lemma concat_map_single {B : Type} (c : B) (t : Z) (ancestors : list Z) :
  NoDup ancestors ->
  concat (map (fun a => if (t =? a)%Z then [c] else []) ancestors) =
  if existsb (Z.eqb t) ancestors then [c] else [].
Proof.
  induction 1 as [|a l Ha Hnd IH]; cbn; [reflexivity|].
  rewrite IH. destruct (Z.eqb_spec t a) as [->|Hne]; [|reflexivity].
  cbn. destruct (existsb (Z.eqb a) l) eqn:Hex; [|reflexivity].
  apply existsb_exists in Hex as (x & Hx & Heq).
  apply Z.eqb_eq in Heq. subst x. contradiction.
Qed.

Lemma cases_from_ancestors_perm (individual : Individual)
    (interested_ancestors : list Z) :
  NoDup interested_ancestors ->
  Permutation (concat (cases_from_ancestors individual interested_ancestors))
              (filter (origin_in interested_ancestors) individual).
Proof.
  intros Hnd. unfold cases_from_ancestors, cases_from_ancestor, origin_in.
  induction individual as [|c individual IH]; cbn [filter].
  - clear Hnd.
    induction interested_ancestors as [|a l IHl]; cbn;
      [reflexivity | exact IHl].
  - etransitivity.
    { erewrite map_ext;
        [apply (concat_map_app_perm
                  (fun a => if (fst c =? a)%Z then [c] else [])
                  (fun a => filter (fun case => (fst case =? a)%Z)
                              individual))|].
      intros a. cbn beta. now destruct (fst c =? a)%Z. }
    rewrite (concat_map_single c (fst c) Hnd).
    destruct (existsb (Z.eqb (fst c)) interested_ancestors); cbn [app].
    + apply perm_skip. exact IH.
    + exact IH.
Qed.

Lemma origin_in_In (ancestors : list Z) (c : Case) :
  origin_in ancestors c = true <-> In (fst c) ancestors.
Proof.
  unfold origin_in. rewrite existsb_exists. split.
  - intros (a & Ha & Heq). apply Z.eqb_eq in Heq. now subst.
  - intros Hin. exists (fst c). split; [exact Hin | apply Z.eqb_refl].
Qed.

(** X10. Grouping is a partition. For pairwise distinct ancestor
    generations, the groups that [cases_from_ancestors] returns hold, put
    together, exactly the cases of the Individual whose origin is one of
    those generations, each case as often as in the Individual; a case of
    any other origin is in no group; and there is one group per requested
    ancestor, in the order requested, each holding only cases of that
    origin. *)
Theorem cases_from_ancestors_partition (individual : Individual)
    (interested_ancestors : list Z) :
  NoDup interested_ancestors ->
  let groups := cases_from_ancestors individual interested_ancestors in
  Permutation (concat groups)
              (filter (origin_in interested_ancestors) individual) /\
  (forall c, In c (concat groups) ->
             In c individual /\ In (fst c) interested_ancestors) /\
  Forall2 (fun ancestor group => Forall (fun c => fst c = ancestor) group)
          interested_ancestors groups /\
  (Forall (fun c => In (fst c) interested_ancestors) individual ->
   length (concat groups) = length individual).
Proof.
  intros Hnd groups. subst groups.
  pose proof (cases_from_ancestors_perm individual Hnd) as Hperm.
  repeat split.
  - exact Hperm.
  - eapply Permutation_in in H; [|exact Hperm].
    apply filter_In in H. apply H.
  - eapply Permutation_in in H; [|exact Hperm].
    apply filter_In in H as [_ H]. now apply origin_in_In.
  - unfold cases_from_ancestors, cases_from_ancestor. clear Hnd Hperm.
    induction interested_ancestors as [|a l IH]; cbn; constructor; auto.
    rewrite Forall_forall. intros c Hc. apply filter_In in Hc as [_ Hc].
    now apply Z.eqb_eq.
  - intros Hall. rewrite (Permutation_length Hperm), filter_all;
      [reflexivity|].
    eapply Forall_impl; [|exact Hall]. intros c Hc. now apply origin_in_In.
Qed.

Lemma cases_from_ancestors_partition_witness :
  NoDup [0; 2; 5]%Z /\
  Permutation
    (concat (cases_from_ancestors
               [(2, 10); (0, 11); (1, 12); (2, 13); (7, 14)]%Z [0; 2; 5]%Z))
    [(2, 10); (0, 11); (2, 13)]%Z /\
  length (concat (cases_from_ancestors [(2, 10); (0, 11)]%Z [0; 2; 5]%Z)) = 2.
Proof.
  assert (Hnd : NoDup [0; 2; 5]%Z).
  { repeat constructor; cbn; intuition discriminate. }
  split; [exact Hnd|].
  destruct (@cases_from_ancestors_partition
              [(2, 10); (0, 11); (1, 12); (2, 13); (7, 14)]%Z [0; 2; 5]%Z Hnd)
    as (Hperm & _).
  destruct (@cases_from_ancestors_partition
              [(2, 10); (0, 11)]%Z [0; 2; 5]%Z Hnd)
    as (_ & _ & _ & Hlen).
  split; [exact Hperm|]. apply Hlen.
  apply Forall_cons; [cbn; auto|]. apply Forall_cons; [cbn; auto|].
  apply Forall_nil.
Defined.

(** ** Per-individual ancestry rates *)

Lemma py_getitem_out_of_range {A : Type} (l : list A) (i : Z) :
  (len l <= i \/ i < - len l)%Z -> py_getitem l i = Raise IndexError.
Proof.
  intros Hi. unfold py_getitem, len in *.
  destruct (Z.ltb_spec i 0) as [Hneg|Hpos].
  - destruct (Z.ltb_spec (i + Z.of_nat (length l)) 0) as [|Hok];
      [reflexivity|].
    destruct Hi as [Hi|Hi]; lia.
  - destruct (Z.ltb_spec i 0); [lia|].
    destruct (nth_error l (Z.to_nat i)) eqn:Hnth; [|reflexivity].
    assert (Z.to_nat i < length l) by (apply nth_error_Some; congruence).
    lia.
Qed.

Lemma percent_cases_from_ancestors_snd (results : SimulationHistory)
    (target_generation : Z) (r : loc) (heap : heap) :
  snd (percent_cases_from_ancestors_at_specified_generation
         results target_generation r heap) =
  (targeted_population <- py_getitem results target_generation ;;
   first <- py_getitem targeted_population 0 ;;
   mapM (fun individual_ancestory =>
           mapM (fun ancestory_cases_id =>
                   ancestor <- py_getitem (py_sorted Z.leb (cell heap r))
                                 (Z.of_nat ancestory_cases_id) ;;
                   cases <- py_getitem individual_ancestory
                              (Z.of_nat ancestory_cases_id) ;;
                   rate <- py_truediv (inject_Z (len cases))
                             (inject_Z (len first)) ;;
                   ret (ancestor, rate))
                (seq 0 (length individual_ancestory)))
        (map (fun individual =>
                cases_from_ancestors individual
                  (py_sorted Z.leb (cell heap r)))
             targeted_population)).
Proof.
  unfold percent_cases_from_ancestors_at_specified_generation.
  cbn [bind Monad_Ana list_sort read_list lift_ana set_cell cell snd].
  now rewrite Nat.eqb_refl.
Qed.

(** X11. [percent_cases_from_ancestors_at_specified_generation] raises
    [IndexError] when the target generation is outside the history or the
    target population is empty, and [ZeroDivisionError] when the first
    Individual has no case and an ancestor is asked for. Otherwise it
    returns, for every Individual in order and every requested ancestor in
    ascending order, the ancestor paired with the number of the
    Individual's cases from that ancestor divided by the number of cases of
    the first Individual. *)
Theorem percent_cases_from_ancestors_behaviour (results : SimulationHistory)
    (target_generation : Z) (r : loc) (heap : heap) :
  let ancestors := py_sorted Z.leb (cell heap r) in
  let outcome :=
    snd (percent_cases_from_ancestors_at_specified_generation
           results target_generation r heap) in
  ((len results <= target_generation \/ target_generation < - len results)%Z
   -> outcome = Raise IndexError) /\
  (py_getitem results target_generation = Ok [] ->
   outcome = Raise IndexError) /\
  (forall rest,
     py_getitem results target_generation = Ok ([] :: rest) ->
     ancestors <> [] -> outcome = Raise ZeroDivisionError) /\
  (forall first rest,
     py_getitem results target_generation = Ok (first :: rest) ->
     first <> [] ->
     outcome =
     Ok (map (fun individual =>
                map (fun ancestor =>
                       (ancestor,
                        ancestry_rate (len first) individual ancestor))
                    ancestors)
             (first :: rest))).
Proof.
  intros ancestors outcome. subst outcome. repeat split.
  - intros Hout. rewrite percent_cases_from_ancestors_snd.
    now rewrite (py_getitem_out_of_range _ Hout).
  - intros Hpop. rewrite percent_cases_from_ancestors_snd, Hpop.
    reflexivity.
  - intros rest Hpop Hne. rewrite percent_cases_from_ancestors_snd, Hpop.
    fold ancestors. cbn [bind Monad_result]. rewrite py_getitem_0.
    destruct ancestors as [|a ancestors']; [contradiction|]. reflexivity.
  - intros first rest Hpop Hfirst.
    now rewrite (@percent_cases_from_ancestors_run results target_generation
                   r heap (first :: rest) first Hpop eq_refl Hfirst).
Qed.

Lemma percent_cases_from_ancestors_behaviour_witness :
  snd (percent_cases_from_ancestors_at_specified_generation
         [demo_population] 1 0 demo_heap) = Raise IndexError /\
  snd (percent_cases_from_ancestors_at_specified_generation
         [[]] 0 0 demo_heap) = Raise IndexError /\
  snd (percent_cases_from_ancestors_at_specified_generation
         [[[]; []]] 0 0 demo_heap) = Raise ZeroDivisionError /\
  snd (percent_cases_from_ancestors_at_specified_generation
         [[[(1, 5); (2, 6); (1, 7); (9, 8)]%Z]] (-1) 0 demo_heap) =
  Ok [[(1%Z, 2 / 4)%Q; (2%Z, 1 / 4)%Q; (3%Z, 0 / 4)%Q]].
Proof.
  destruct (percent_cases_from_ancestors_behaviour
              [demo_population] 1 0 demo_heap) as (H1 & _).
  destruct (percent_cases_from_ancestors_behaviour [[]] 0 0 demo_heap)
    as (_ & H2 & _).
  destruct (percent_cases_from_ancestors_behaviour [[[]; []]] 0 0 demo_heap)
    as (_ & _ & H3 & _).
  destruct (percent_cases_from_ancestors_behaviour
              [[[(1, 5); (2, 6); (1, 7); (9, 8)]%Z]] (-1) 0 demo_heap)
    as (_ & _ & _ & H4).
  split; [apply H1; left; cbn; lia|].
  split; [apply H2; reflexivity|].
  split; [apply (H3 [[]]); [reflexivity | discriminate]|].
  apply (H4 [(1, 5); (2, 6); (1, 7); (9, 8)]%Z []);
    [reflexivity | discriminate].
Defined.

(** ** The probability of an older origin *)

Lemma py_sorted_ascending_id (l : list Z) :
  StronglySorted Z.le l -> py_sorted Z.leb l = l.
Proof.
  induction 1 as [|x l Hl IH Hx]; cbn [py_sorted]; [reflexivity|].
  rewrite IH. destruct l as [|y l]; [reflexivity|]. cbn [insert_sorted].
  inversion Hx as [|? ? Hxy _]; subst.
  destruct (Z.leb_spec x y); [reflexivity | lia].
Qed.

Lemma py_range_ascending (a b : Z) : StronglySorted Z.le (py_range a b).
Proof.
  unfold py_range. generalize (Z.to_nat (b - a)) as n. intros n.
  generalize 0 as s. induction n as [|n IH]; intros s; cbn [seq map];
    constructor; [apply IH|].
  rewrite Forall_forall. intros x Hx.
  apply in_map_iff in Hx as (i & <- & Hi). apply in_seq in Hi. lia.
Qed.


Lemma py_range_In (a b x : Z) : In x (py_range a b) <-> (a <= x < b)%Z.
Proof.
  unfold py_range. rewrite in_map_iff. split.
  - intros (i & <- & Hi). apply in_seq in Hi. lia.
  - intros Hx. exists (Z.to_nat (x - a)). split; [lia|].
    apply in_seq. lia.
Qed.

Lemma set_at_middle {A : Type} (done : list A) (b x : A) (todo : list A) :
  set_at (length done) x (done ++ b :: todo) = done ++ x :: todo.
Proof. induction done as [|d done IH]; cbn; [reflexivity | now rewrite IH]. Qed.

Lemma foldM_cons_result {A B : Type} (f : B -> A -> result B)
    (x : A) (l : list A) (acc acc' : B) :
  f acc x = Ok acc' -> foldM f (x :: l) acc = foldM f l acc'.
Proof. intros H. cbn. now rewrite H. Qed.

Lemma append_row_fold (row : list (Z * Q)) :
  forall rtodo rdone done todo,
  row = rdone ++ rtodo ->
  length done = length rdone -> length todo = length rtodo ->
  foldM (fun buckets ancestor_id =>
           bucket <- py_getitem buckets (Z.of_nat ancestor_id) ;;
           entry <- py_getitem row (Z.of_nat ancestor_id) ;;
           ret (set_at ancestor_id (bucket ++ [snd entry]) buckets))
        (seq (length rdone) (length rtodo)) (done ++ todo)
  = Ok (done ++ append_row todo rtodo).
Proof.
  induction rtodo as [|e rtodo IH]; intros rdone done todo Hrow Hdone Htodo.
  - destruct todo; [|discriminate]. reflexivity.
  - destruct todo as [|b todo]; [discriminate|].
    assert (Hentry : nth_error row (length rdone) = Some e).
    { rewrite Hrow, nth_error_app2, Nat.sub_diag by lia. reflexivity. }
    assert (Hbucket : nth_error (done ++ b :: todo) (length rdone) = Some b).
    { rewrite <- Hdone, nth_error_app2, Nat.sub_diag by lia. reflexivity. }
    cbn [length seq].
    rewrite (@foldM_cons_result _ _ _ _ _ _
               ((done ++ [b ++ [snd e]]) ++ todo)).
    2:{ cbv beta. rewrite !py_getitem_nat, Hbucket, Hentry.
        cbn [bind Monad_result ret snd].
        rewrite <- Hdone, set_at_middle, <- app_assoc. reflexivity. }
    replace (S (length rdone)) with (length (rdone ++ [e]))
      by (rewrite length_app; cbn; lia).
    rewrite IH.
    + rewrite <- app_assoc. reflexivity.
    + now rewrite <- app_assoc.
    + rewrite !length_app. cbn. lia.
    + cbn in Htodo. lia.
Qed.

Lemma append_row_fold_all (row : list (Z * Q)) (buckets : list (list Q)) :
  length buckets = length row ->
  foldM (fun buckets ancestor_id =>
           bucket <- py_getitem buckets (Z.of_nat ancestor_id) ;;
           entry <- py_getitem row (Z.of_nat ancestor_id) ;;
           ret (set_at ancestor_id (bucket ++ [snd entry]) buckets))
        (seq 0 (length row)) buckets
  = Ok (append_row buckets row).
Proof.
  intros Hlen.
  exact (@append_row_fold row row [] [] buckets eq_refl eq_refl Hlen).
Qed.

Lemma append_row_map (ancestors : list Z) (B : Z -> list Q) (f : Z -> Q) :
  append_row (map B ancestors) (map (fun a => (a, f a)) ancestors)
  = map (fun a => B a ++ [f a]) ancestors.
Proof.
  unfold append_row.
  induction ancestors as [|a l IH]; cbn; [reflexivity | now rewrite IH].
Qed.

Lemma fill_buckets {A : Type} (ancestors : list Z) (f : A -> Z -> Q)
    (l : list A) :
  forall B : Z -> list Q,
  foldM (fun buckets individual =>
           foldM (fun buckets ancestor_id =>
                    bucket <- py_getitem buckets (Z.of_nat ancestor_id) ;;
                    entry <- py_getitem individual (Z.of_nat ancestor_id) ;;
                    ret (set_at ancestor_id (bucket ++ [snd entry]) buckets))
                 (seq 0 (length individual)) buckets)
        (map (fun x => map (fun a => (a, f x a)) ancestors) l)
        (map B ancestors)
  = Ok (map (fun a => B a ++ map (fun x => f x a) l) ancestors).
Proof.
  induction l as [|x l IH]; intros B.
  - cbn. f_equal. apply map_ext. intros a. now rewrite app_nil_r.
  - cbn [map].
    rewrite (@foldM_cons_result _ _ _ _ _ _
               (map (fun a => B a ++ [f x a]) ancestors)).
    2:{ cbv beta.
        rewrite append_row_fold_all by now rewrite !length_map.
        now rewrite append_row_map. }
    rewrite (IH (fun a => B a ++ [f x a])). f_equal.
    apply map_ext. intros a. now rewrite <- app_assoc.
Qed.

(** The closed form of [percent_cases_above_ancestor]. *)
Lemma percent_cases_above_ancestor_closed_form
    (results : SimulationHistory) (target_generation targeted_ancestors : Z)
    (heap : heap) (population : Population) (first : Individual) :
  py_getitem results target_generation = Ok population ->
  head population = Some first -> first <> [] ->
  snd (percent_cases_above_ancestor
         results target_generation targeted_ancestors heap) =
  Ok (1 - py_fsum
            (map (fun ancestor =>
                    py_fsum (map (fun individual =>
                                    ancestry_rate (len first) individual
                                      ancestor)
                                 population)
                    / inject_Z (len population))
                 (py_range targeted_ancestors (target_generation + 1))))%Q.
Proof.
  intros Hpop Hhead Hfirst. unfold percent_cases_above_ancestor.
  cbn [bind Monad_Ana new_list].
  rewrite (@percent_cases_from_ancestors_run results target_generation _ _
             population first Hpop Hhead Hfirst).
  cbn [set_cell cell fresh]. rewrite Nat.eqb_refl.
  rewrite (py_sorted_ascending_id (py_range_ascending _ _)).
  set (ancestors := py_range targeted_ancestors (target_generation + 1)).
  unfold lift_ana. cbn [snd].
  rewrite (py_getitem_0_map _ _ Hhead), bind_result_Ok.
  rewrite length_map.
  replace (repeat ([] : list Q) (length ancestors))
    with (map (fun _ : Z => ([] : list Q)) ancestors)
    by (induction ancestors; cbn; congruence).
  pose proof (fill_buckets ancestors
                (fun individual ancestor =>
                   ancestry_rate (len first) individual ancestor)
                population (fun _ => [])) as Hfill.
  unfold ancestry_rate in *. cbv beta in Hfill.
  rewrite Hfill, bind_result_Ok. cbn [app].
  rewrite (mapM_result_map _
             (fun bucket => (py_fsum bucket / inject_Z (len bucket))%Q)).
  - rewrite bind_result_Ok. cbn [ret Monad_result]. do 3 f_equal.
    rewrite map_map. apply map_ext. intros a. unfold len.
    now rewrite length_map.
  - intros bucket Hin. apply in_map_iff in Hin as (a & <- & _).
    apply py_truediv_Ok. unfold len. rewrite length_map.
    apply (@inject_Z_len_nonzero _ population).
    destruct population; discriminate.
Qed.

Lemma percent_cases_above_ancestor_snd (results : SimulationHistory)
    (target_generation targeted_ancestors : Z) (heap : heap) :
  snd (percent_cases_above_ancestor
         results target_generation targeted_ancestors heap) =
  (percents_from_ancestor_to_target <-
     snd (percent_cases_from_ancestors_at_specified_generation
            results target_generation (fresh heap)
            (set_cell (fresh heap)
               (py_range targeted_ancestors (target_generation + 1))
               (mkHeap (cell heap) (S (fresh heap))))) ;;
   first <- py_getitem percents_from_ancestor_to_target 0 ;;
   filled <-
     foldM (fun buckets individual =>
              foldM (fun buckets ancestor_id =>
                       bucket <- py_getitem buckets (Z.of_nat ancestor_id) ;;
                       entry <- py_getitem individual
                                  (Z.of_nat ancestor_id) ;;
                       ret (set_at ancestor_id (bucket ++ [snd entry])
                              buckets))
                    (seq 0 (length individual)) buckets)
           percents_from_ancestor_to_target
           (repeat ([] : list Q) (length first)) ;;
   averages <-
     mapM (fun ancestor =>
             py_truediv (py_fsum ancestor) (inject_Z (len ancestor)))
          filled ;;
   ret (1 - py_fsum averages)%Q).
Proof.
  unfold percent_cases_above_ancestor. cbn [bind Monad_Ana new_list].
  destruct (percent_cases_from_ancestors_at_specified_generation _ _ _ _)
    as [h2 [percents|e]]; reflexivity.
Qed.

Lemma passed_ancestors (heap : heap) (l : list Z) :
  cell (set_cell (fresh heap) l (mkHeap (cell heap) (S (fresh heap))))
       (fresh heap) = l.
Proof. cbn [set_cell cell fresh]. now rewrite Nat.eqb_refl. Qed.

Lemma py_range_empty (a b : Z) : (b <= a)%Z -> py_range a b = [].
Proof.
  intros Hab. unfold py_range. replace (Z.to_nat (b - a)) with 0 by lia.
  reflexivity.
Qed.

Lemma fill_no_bucket {A : Type} (l : list A) :
  foldM (fun buckets individual =>
           foldM (fun buckets ancestor_id =>
                    bucket <- py_getitem buckets (Z.of_nat ancestor_id) ;;
                    entry <- py_getitem individual (Z.of_nat ancestor_id) ;;
                    ret (set_at ancestor_id (bucket ++ [snd entry]) buckets))
                 (seq 0 (length individual)) buckets)
        (map (fun _ : A => ([] : list (Z * Q))) l) ([] : list (list Q))
  = Ok [].
Proof.
  induction l as [|x l IH]; [reflexivity|]. cbn [map].
  now rewrite (@foldM_cons_result _ _ _ _ _ _ []).
Qed.

(** X12. [percent_cases_above_ancestor] raises [IndexError] when the target
    generation is outside the history or the target population is empty,
    and [ZeroDivisionError] when the first Individual has no case and the
    range of generations is not empty. On an empty range
    ([targeted_ancestors > target_generation]) it returns 1. Otherwise it
    returns 1 minus the sum, over the generations from [targeted_ancestors]
    to [target_generation], of the mean over the Individuals of the number
    of cases from that generation divided by the number of cases of the
    first Individual. *)
Theorem percent_cases_above_ancestor_behaviour
    (results : SimulationHistory) (target_generation targeted_ancestors : Z)
    (heap : heap) :
  let outcome :=
    snd (percent_cases_above_ancestor
           results target_generation targeted_ancestors heap) in
  ((len results <= target_generation \/ target_generation < - len results)%Z
   -> outcome = Raise IndexError) /\
  (py_getitem results target_generation = Ok [] ->
   outcome = Raise IndexError) /\
  (forall rest,
     py_getitem results target_generation = Ok ([] :: rest) ->
     (targeted_ancestors <= target_generation)%Z ->
     outcome = Raise ZeroDivisionError) /\
  (forall first rest,
     py_getitem results target_generation = Ok (first :: rest) ->
     (target_generation < targeted_ancestors)%Z ->
     outcome = Ok (1 - 0)%Q) /\
  (forall first rest,
     py_getitem results target_generation = Ok (first :: rest) ->
     first <> [] ->
     outcome =
     Ok (1 - py_fsum
               (map (fun ancestor =>
                       py_fsum (map (fun individual =>
                                       ancestry_rate (len first) individual
                                         ancestor)
                                    (first :: rest))
                       / inject_Z (len (first :: rest)))
                    (py_range targeted_ancestors
                       (target_generation + 1))))%Q).
Proof.
  intros outcome. subst outcome. repeat split.
  - intros Hout.
    rewrite percent_cases_above_ancestor_snd,
      percent_cases_from_ancestors_snd.
    now rewrite (py_getitem_out_of_range _ Hout).
  - intros Hpop.
    rewrite percent_cases_above_ancestor_snd,
      percent_cases_from_ancestors_snd, Hpop.
    reflexivity.
  - intros rest Hpop Hrange.
    rewrite percent_cases_above_ancestor_snd,
      percent_cases_from_ancestors_snd, Hpop, passed_ancestors.
    rewrite (py_sorted_ascending_id (py_range_ascending _ _)).
    destruct (py_range targeted_ancestors (target_generation + 1))
      as [|a l] eqn:Hr; [|reflexivity].
    assert (Hin : In targeted_ancestors
                    (py_range targeted_ancestors (target_generation + 1)))
      by (apply py_range_In; lia).
    rewrite Hr in Hin. contradiction.
  - intros first rest Hpop Hrange.
    rewrite percent_cases_above_ancestor_snd,
      percent_cases_from_ancestors_snd, Hpop, passed_ancestors.
    rewrite py_range_empty by lia. cbn [py_sorted].
    rewrite bind_result_Ok, py_getitem_0, bind_result_Ok.
    rewrite (mapM_result_map _ (fun _ => [])).
    + rewrite bind_result_Ok.
      rewrite map_map. cbn [map]. rewrite py_getitem_0. cbv iota.
      rewrite bind_result_Ok. cbn [length repeat].
      pose proof (fill_no_bucket rest) as Hfill.
      rewrite (@foldM_cons_result _ _ _ _ _ _ []) by reflexivity.
      rewrite Hfill. reflexivity.
    + intros ias Hias. apply in_map_iff in Hias as (individual & <- & _).
      reflexivity.
  - intros first rest Hpop Hfirst.
    now rewrite (@percent_cases_above_ancestor_closed_form
                   results target_generation targeted_ancestors heap
                   (first :: rest) first Hpop eq_refl Hfirst).
Qed.

Lemma percent_cases_above_ancestor_behaviour_witness :
  snd (percent_cases_above_ancestor [demo_population] 1 0 demo_heap)
    = Raise IndexError /\
  snd (percent_cases_above_ancestor [[]] 0 0 demo_heap)
    = Raise IndexError /\
  snd (percent_cases_above_ancestor [[[]; []]] 0 0 demo_heap)
    = Raise ZeroDivisionError /\
  snd (percent_cases_above_ancestor [[[]; []]] 0 1 demo_heap)
    = Ok (1 - 0)%Q /\
  exists q,
    snd (percent_cases_above_ancestor [demo_population] 0 0 demo_heap)
      = Ok q /\ (q == 0)%Q.
Proof.
  destruct (percent_cases_above_ancestor_behaviour
              [demo_population] 1 0 demo_heap) as (H1 & _).
  destruct (percent_cases_above_ancestor_behaviour [[]] 0 0 demo_heap)
    as (_ & H2 & _).
  destruct (percent_cases_above_ancestor_behaviour [[[]; []]] 0 0 demo_heap)
    as (_ & _ & H3 & _).
  destruct (percent_cases_above_ancestor_behaviour [[[]; []]] 0 1 demo_heap)
    as (_ & _ & _ & H4 & _).
  destruct (percent_cases_above_ancestor_behaviour
              [demo_population] 0 0 demo_heap) as (_ & _ & _ & _ & H5).
  split; [apply H1; left; cbn; lia|].
  split; [apply H2; reflexivity|].
  split; [apply (H3 [[]]); [reflexivity | lia]|].
  split; [apply (H4 [] [[]]); [reflexivity | lia]|].
  eexists. split.
  - apply (H5 (demo_individual 10)
              (map demo_individual [20; 30; 40; 50; 60; 70; 80]%Z));
      [reflexivity | discriminate].
  - vm_compute. reflexivity.
Defined.












(** ** More on the threshold estimator *)





(** ** How many cases a generation contributes *)













(** ** The reference driver *)


(** * Further properties of the building blocks *)

(** X17. [generate_initial_population] never raises: for every [p] and
    [num_cases], zero included, it returns [p] Individuals of [num_cases]
    cases each, every case with origin generation 0 and an error value in
    [[0,9999]]; all its Individuals share the same origin tags. *)
Theorem generate_initial_population_spec (p num_cases : nat) (g : rng) :
  exists population g',
    generate_initial_population p num_cases g = Ok (population, g') /\
    length population = p /\
    (forall individual, In individual population ->
       length individual = num_cases /\
       map fst individual = repeat 0%Z num_cases /\
       forall c, In c individual -> (0 <= snd c <= 9999)%Z) /\
    (p = 0 -> population = []) /\
    (num_cases = 0 -> population = repeat [] p).
Proof.
  destruct (generate_initial_population_returns p num_cases g)
    as (population & g' & Hrun & [Hsize Hlen] & Hfresh).
  exists population, g'. split; [exact Hrun|]. split; [exact Hsize|].
  unfold freshly_generated in Hfresh. rewrite Forall_forall in Hlen, Hfresh.
  assert (Hall : forall individual, In individual population ->
            length individual = num_cases /\
            map fst individual = repeat 0%Z num_cases /\
            forall c, In c individual -> (0 <= snd c <= 9999)%Z).
  { intros individual Hin. specialize (Hlen _ Hin).
    specialize (Hfresh _ Hin). split; [exact Hlen|]. split.
    - rewrite <- Hlen. clear Hlen Hin.
      induction Hfresh as [|c l [Hc _] _ IH]; [reflexivity|].
      cbn. now rewrite Hc, IH.
    - rewrite Forall_forall in Hfresh. intros c Hc. now apply Hfresh. }
  split; [exact Hall|]. split.
  - intros ->. destruct population; [reflexivity | discriminate].
  - intros ->. rewrite <- Hsize. clear Hsize Hrun.
    induction population as [|x population IH]; [reflexivity|].
    cbn [length repeat].
    destruct (Hall x (or_introl eq_refl)) as [Hx _].
    destruct x; [|discriminate]. f_equal. apply IH.
    + intros y Hy. apply Hlen. now right.
    + intros y Hy. apply Hfresh. now right.
    + intros y Hy. apply Hall. now right.
Qed.

Lemma generate_initial_population_spec_witness :
  exists g', generate_initial_population 0 5 demo_rng = Ok ([], g').
Proof.
  destruct (generate_initial_population_spec 0 5 demo_rng)
    as (population & g' & Hrun & _ & _ & Hzero & _).
  rewrite (Hzero eq_refl) in Hrun. exists g'. exact Hrun.
Defined.

(** X18. [get_new_generation_age] reads the first Individual only: it
    raises [IndexError] on an empty population and [ValueError] when the
    first Individual has no case; otherwise it returns one plus an origin
    tag of the first Individual that no tag of the first Individual
    exceeds, whatever the other Individuals hold. *)
Theorem get_new_generation_age_spec (first : Individual)
    (rest : Population) :
  get_new_generation_age [] = Raise IndexError /\
  get_new_generation_age ([] :: rest) = Raise ValueError /\
  (forall others,
     get_new_generation_age (first :: rest)
     = get_new_generation_age (first :: others)) /\
  (first <> [] ->
   exists age,
     get_new_generation_age (first :: rest) = Ok age /\
     In (age - 1)%Z (map fst first) /\
     Forall (fun c => (fst c < age)%Z) first).
Proof.
  split; [reflexivity|]. split; [reflexivity|]. split.
  - intros others. now rewrite !get_new_generation_age_max.
  - intros Hne. rewrite get_new_generation_age_max.
    destruct (max_origin first) as [oldest|e] eqn:Hmax.
    + exists (oldest + 1)%Z. split; [reflexivity|].
      unfold max_origin in Hmax. apply py_max_tag_spec in Hmax as [Hin Hle].
      split; [now replace (oldest + 1 - 1)%Z with oldest by lia|].
      rewrite Forall_map in Hle.
      eapply Forall_impl; [|exact Hle]. cbn beta. intros c Hc. lia.
    + unfold max_origin in Hmax. destruct first; [contradiction|].
      discriminate.
Qed.

Lemma get_new_generation_age_spec_witness :
  [(3, 1); (7, 2); (5, 3)]%Z <> [] /\
  get_new_generation_age [[(3, 1); (7, 2); (5, 3)]%Z; [(90, 1)]%Z]
    = Ok 8%Z /\
  get_new_generation_age [[]; [(90, 1)]%Z] = Raise ValueError.
Proof.
  assert (Hne : [(3, 1); (7, 2); (5, 3)]%Z <> []) by discriminate.
  split; [exact Hne|].
  destruct (get_new_generation_age_spec
              [(3, 1); (7, 2); (5, 3)]%Z [[(90, 1)]%Z])
    as (_ & Hempty & _ & Hage).
  destruct (Hage Hne) as (age & Hrun & _).
  split; [|exact Hempty].
  cbn in Hrun. injection Hrun as <-. reflexivity.
Defined.

(** * Longer runs extend shorter ones *)

Lemma evolve_succ (rate : Q) (n : nat) :
  forall hacc g,
  evolve (S n) rate hacc g
  = (h <- evolve n rate hacc ;; extend_history rate h) g.
Proof.
  induction n as [|n IH]; intros hacc g.
  - unfold extend_history. cbn [evolve bind ret Monad_Sim].
    destruct (lift (py_getitem hacc (len hacc - 1)) g) as [[latest g0]|e];
      [|reflexivity].
    destruct (simulate_one_generation latest rate g0) as [[next g1]|e];
      reflexivity.
  - change (evolve (S (S n)) rate hacc g)
      with ((latest <- lift (py_getitem hacc (len hacc - 1)) ;;
             next <- simulate_one_generation latest rate ;;
             evolve (S n) rate (hacc ++ [next])) g).
    change (evolve (S n) rate hacc)
      with (latest <- lift (py_getitem hacc (len hacc - 1)) ;;
            next <- simulate_one_generation latest rate ;;
            evolve n rate (hacc ++ [next])).
    cbn [bind Monad_Sim].
    destruct (lift (py_getitem hacc (len hacc - 1)) g) as [[latest g0]|e];
      [|reflexivity].
    destruct (simulate_one_generation latest rate g0) as [[next g1]|e];
      [|reflexivity].
    rewrite IH. reflexivity.
Qed.

Lemma simualte_evolution_succ n pop_size num_cases rate g :
  simualte_evolution (S n) pop_size num_cases rate g
  = (h <- simualte_evolution n pop_size num_cases rate ;;
     extend_history rate h) g.
Proof.
  unfold simualte_evolution. cbn [bind Monad_Sim].
  destruct (generate_initial_population pop_size num_cases g)
    as [[initial g0]|e]; [|reflexivity].
  rewrite evolve_succ. reflexivity.
Qed.

Lemma extend_history_Ok (rate : Q) (h h' : SimulationHistory) g g' :
  extend_history rate h g = Ok (h', g') ->
  exists latest next,
    py_getitem h (len h - 1) = Ok latest /\
    simulate_one_generation latest rate g = Ok (next, g') /\
    h' = h ++ [next].
Proof.
  intros Hrun. unfold extend_history in Hrun.
  apply bind_Ok in Hrun as (latest & g0 & Hlatest & Hrun).
  apply lift_Ok in Hlatest as [Hlatest ->].
  apply bind_Ok in Hrun as (next & g1 & Hstep & Hrun).
  cbn in Hrun. inversion Hrun; subst.
  now exists latest, next.
Qed.

Lemma simualte_evolution_length n pop_size num_cases rate g h g' :
  simualte_evolution n pop_size num_cases rate g = Ok (h, g') ->
  length h = S n.
Proof.
  intros Hrun.
  apply simualte_evolution_unfold in Hrun
    as (initial & g0 & trace & _ & _ & _ & Hlen & _ & -> & _).
  cbn [length]. now rewrite length_map, Hlen.
Qed.

(** X19. A longer run extends a shorter one.  With the same parameters and
    the same random source, the history of [n] generations is the first
    [n + 1] populations of the history of any [m >= n] generations, and an
    exception raised within [n] generations is the one raised by the run of
    [m] generations. *)
Theorem simualte_evolution_prefix (n m pop_size num_cases : nat) (rate : Q)
    (g : rng) :
  n <= m ->
  (forall e,
     simualte_evolution n pop_size num_cases rate g = Raise e ->
     simualte_evolution m pop_size num_cases rate g = Raise e) /\
  (forall hm g',
     simualte_evolution m pop_size num_cases rate g = Ok (hm, g') ->
     exists g1,
       simualte_evolution n pop_size num_cases rate g
       = Ok (firstn (S n) hm, g1)).
Proof.
  induction 1 as [|m Hle [IHraise IHok]].
  - split; [auto|]. intros hm g' Hrun. exists g'.
    rewrite firstn_all2; [exact Hrun|].
    apply simualte_evolution_length in Hrun. lia.
  - split.
    + intros e He. rewrite simualte_evolution_succ. cbn [bind Monad_Sim].
      now rewrite (IHraise e He).
    + intros hm g' Hrun. rewrite simualte_evolution_succ in Hrun.
      apply bind_Ok in Hrun as (h & g0 & Hm & Hext).
      apply extend_history_Ok in Hext as (latest & next & _ & _ & ->).
      destruct (IHok h g0 Hm) as (g1 & Hn). exists g1. rewrite Hn.
      apply simualte_evolution_length in Hm.
      rewrite firstn_app.
      replace (S n - length h) with 0 by lia.
      cbn [firstn]. now rewrite app_nil_r.
Qed.

Lemma simualte_evolution_prefix_witness :
  1 <= 2 /\
  exists hm g' g1,
    simualte_evolution 2 7 1 (1 # 2) demo_rng = Ok (hm, g') /\
    simualte_evolution 1 7 1 (1 # 2) demo_rng = Ok (firstn 2 hm, g1).
Proof.
  assert (Hle : 1 <= 2) by lia.
  split; [exact Hle|].
  assert (Hrate : (0 <= 1 # 2 <= 1)%Q) by (split; discriminate).
  destruct (@simualte_evolution_returns 2 7 1 (1 # 2) (le_n 7) (le_n 1)
              Hrate demo_rng) as (hm & g' & Hrun & _).
  destruct (@simualte_evolution_prefix 1 2 7 1 (1 # 2) demo_rng Hle)
    as [_ Hok].
  destruct (Hok hm g' Hrun) as (g1 & Hn).
  exists hm, g', g1. split; [exact Hrun | exact Hn].
Defined.

(** * Which Individuals a tournament can select *)

Lemma max_by_keep {A : Type} (key : A -> Z) (l : list A) (best : A) :
  Forall (fun y => (key y <= key best)%Z) l -> max_by key best l = best.
Proof.
  induction 1 as [|y l Hy _ IH]; cbn [max_by]; [reflexivity|].
  destruct (Z.ltb_spec (key best) (key y)); [lia | exact IH].
Qed.

Lemma Forall_exists_Forall2 {A B : Type} (P : A -> B -> Prop)
    (Q : B -> Prop) (l : list A) :
  Forall (fun a => exists b, P a b /\ Q b) l ->
  exists l', Forall2 P l l' /\ Forall Q l'.
Proof.
  induction 1 as [|a l (b & Hp & Hq) _ (l' & Hl & Hl')].
  - exists []. split; constructor.
  - exists (b :: l'). split; constructor; assumption.
Qed.

(** X20. Every Individual that is at least matched by six others can win a
    tournament: if the Individual at position [i] has a summed error value
    not below those at six further pairwise distinct positions, then for
    some random source [tournament_selection] returns it. *)
Theorem tournament_selection_reachable (population : Population)
    (x : Individual) (i : nat) (js : list nat) :
  nth_error population i = Some x ->
  NoDup (i :: js) ->
  length js = 6 ->
  Forall (fun j => exists y : Individual,
            nth_error population j = Some y /\
            (total_error y <= total_error x)%Z) js ->
  exists g g', tournament_selection population g = Ok (x, g').
Proof.
  intros Hi Hnd Hlen Hjs.
  apply (@Forall_exists_Forall2 nat Individual
           (fun j y => nth_error population j = Some y)
           (fun y => (total_error y <= total_error x)%Z)) in Hjs
    as (ys & Hys & Hle).
  assert (Hd : drawn_from population (i :: js) (x :: ys)).
  { split; [exact Hnd|]. constructor; assumption. }
  destruct (sample_complete Hd) as (g & g' & Hrun).
  cbn [length] in Hrun. rewrite Hlen in Hrun.
  exists g, g'.
  rewrite (@tournament_selection_unfold population g (x :: ys) g' Hrun).
  cbn [py_max lift]. now rewrite (@max_by_keep Individual total_error ys x Hle).
Qed.

Lemma tournament_selection_reachable_witness :
  nth_error skewed_population 6 = Some [(5, 7)]%Z /\
  exists g g',
    tournament_selection skewed_population g = Ok ([(5, 7)]%Z, g').
Proof.
  split; [reflexivity|].
  assert (Hnd : NoDup [6; 0; 1; 2; 3; 4; 5]).
  { repeat (constructor; [cbn; lia|]). constructor. }
  apply (@tournament_selection_reachable skewed_population
           [(5, 7)]%Z 6 [0; 1; 2; 3; 4; 5] eq_refl Hnd eq_refl).
  repeat (constructor;
          [eexists; split; [reflexivity | vm_compute; discriminate]|]).
  constructor.
Defined.
